(** * Table schema and column/row resizing of prosemirror-tables

    A shallow embedding of [src/schema.ts] (attribute parsing of cells and
    rows) and [src/columnresizing.ts] (the resize plugin: state reducer,
    edge hit-testing, width redistribution, handle decorations), with the
    properties the specification states about them.

    Conventions of the embedding:
    - JavaScript numbers that hold document positions, grid indices, pixel
      coordinates and widths are integers ([Z]); [-1] is the plugin's own
      "no handle" sentinel.
    - reading an array outside its bounds gives [undefined]: [None];
    - a run that throws (a [RangeError] or [TypeError] of the host, or of
      [TableMap]) is [None] in the [option] monad; so is an array write
      outside [0 .. length-1], which JavaScript would answer by growing
      the array with holes that the integer lists used here cannot hold. *)

From Stdlib Require Import ZArith Lia Ascii String DecimalString DecimalPos.
From stdpp Require Import base option list gmap strings.

Open Scope Z_scope.

(** ** JavaScript arrays read and written by integer index *)

Section Arrays.
Context {A : Type}.

(** [a[i]]: [undefined] outside the bounds. *)
Definition arrayGet (a : list A) (i : Z) : option A :=
  if decide (0 ≤ i) then a !! Z.to_nat i else None.

(** [a[i] = v] on a copy of [a], for an index inside the bounds. *)
Definition arraySet (a : list A) (i : Z) (v : A) : option (list A) :=
  if decide (0 ≤ i < Z.of_nat (length a)) then Some (<[Z.to_nat i := v]> a)
  else None.

(** [a.indexOf(x)] continued from index [i]: first match or [-1]. *)
Fixpoint indexOfFrom `{EqDecision A} (x : A) (a : list A) (i : Z) : Z :=
  match a with
  | [] => -1
  | y :: a' => if decide (y = x) then i else indexOfFrom x a' (i + 1)
  end.

Definition indexOf `{EqDecision A} (a : list A) (x : A) : Z :=
  indexOfFrom x a 0.

End Arrays.

(** Loop counters [0, 1, .., n-1] of a [for (let i = 0; i < n; i++)]. *)
Definition upto (n : Z) : list Z := seqZ 0 n.

Module ColumnResizing.

(** ** Plugin state *)

(** [type Dragging = { startPosition: number; startDimension: number }] *)
Record Dragging := { startPosition : Z; startDimension : Z }.

(** The [dragging] field: a drag record, [false] (initial state and
    [setHandle]) or [null] (the [setDragging: null] sent on release). *)
Inductive DraggingField :=
  | DragFalse
  | DragNull
  | Drag (d : Dragging).

(** Truthiness of the field, as in [if (pluginState.dragging)]. *)
Definition isDragging (d : DraggingField) : option Dragging :=
  match d with Drag d => Some d | _ => None end.

(** [type typePositionCell = 'row' | 'col' | undefined] *)
Inductive typePositionCell := PosRow | PosCol | PosUndefined.

#[global] Instance typePositionCell_eq_dec : EqDecision typePositionCell.
Proof. solve_decision. Defined.

Record ResizeState := {
  activeHandle : Z;
  dragging : DraggingField;
  position : typePositionCell
}.

(** The value stored under the plugin key in a transaction's meta data.
    [setHandle = None] stands for an absent (or null) field, and
    [setDragging = None] for an absent one; [Some DragNull] is an explicit
    [setDragging: null]. *)
Record Action := {
  setHandle : option Z;
  setDragging : option DraggingField;
  setPosition : typePositionCell
}.

(** What [ResizeState.apply] consults of a host transaction. *)
Record Transaction := {
  (** [tr.getMeta(columnResizingPluginKey)] *)
  getMeta : option Action;
  (** [tr.docChanged] *)
  docChanged : bool;
  (** [tr.mapping.map(pos, assoc)] *)
  mappingMap : Z → Z → Z;
  (** [pointsAtCell(tr.doc.resolve(pos))] on the transaction's document *)
  pointsAtCell : Z → bool
}.

(** [new ResizeState(-1, false, undefined)] of the plugin's [init]. *)
Definition initState : ResizeState :=
  {| activeHandle := -1; dragging := DragFalse; position := PosUndefined |}.

(** [ResizeState.apply(tr)] *)
Definition apply (state : ResizeState) (tr : Transaction) : ResizeState :=
  let remap :=
    if decide (activeHandle state > -1) then
      if docChanged tr then
        let handle := mappingMap tr (activeHandle state) (-1) in
        let handle := if pointsAtCell tr handle then handle else -1 in
        {| activeHandle := handle; dragging := dragging state;
           position := PosUndefined |}
      else state
    else state in
  match getMeta tr with
  | Some action =>
      match setHandle action with
      | Some h =>
          {| activeHandle := h; dragging := DragFalse;
             position := setPosition action |}
      | None =>
          match setDragging action with
          | Some d =>
              {| activeHandle := activeHandle state; dragging := d;
                 position := setPosition action |}
          | None => remap
          end
      end
  | None => remap
  end.

(** ** Pointer events and the DOM around them *)

(** [getBoundingClientRect()] *)
Record Rect := { left : Z; right : Z; top : Z; bottom : Z }.

(** A DOM node on the ancestor chain of an event target. [classList] is
    absent on nodes that are not elements. *)
Record Element := {
  nodeName : string;
  classList : option (list string);
  boundingClientRect : Rect
}.

(** [event.target] is given with its ancestors, innermost first, which is
    all [domCellAround] walks; [which] is the pressed-button signal. *)
Record MouseEvent := {
  clientX : Z;
  clientY : Z;
  which : Z;
  target : list Element
}.

(** [domCellAround(target)]: climb to the nearest [TD] or [TH], giving up
    at the editor's root element. *)
Fixpoint domCellAround (target : list Element) : option Element :=
  match target with
  | [] => None
  | e :: parents =>
      if decide (nodeName e = "TD" ∨ nodeName e = "TH") then Some e
      else
        match classList e with
        | Some cl => if decide ("ProseMirror" ∈ cl) then None
                     else domCellAround parents
        | None => domCellAround parents
        end
  end.

(** [draggedDimension(position, dragging, event, cellMin)] *)
Definition draggedDimension (position : typePositionCell) (dragging : Dragging)
    (event : MouseEvent) (cellMin : Z) : Z :=
  let offset :=
    if decide (position = PosCol) then clientX event - startPosition dragging
    else clientY event - startPosition dragging in
  Z.max cellMin (startDimension dragging + offset).

(** What the drag's global [mousemove] listener ([move], local to
    [handleMouseDown]) does with an event: hand over to [finish] when no
    button is pressed any more, repaint the live preview with the dragged
    dimension ([displayColumnDimension]), or nothing. *)
Inductive MoveOutcome :=
  | MoveFinish
  | MovePreview (position : typePositionCell) (handle : Z) (dragged : Z)
  | MoveNothing.

Definition move (pluginState : option ResizeState) (event : MouseEvent)
    (cellMin : Z) : MoveOutcome :=
  if decide (which event = 0) then MoveFinish
  else
    match pluginState with
    | None => MoveNothing
    | Some ps =>
        match isDragging (dragging ps) with
        | Some d =>
            MovePreview (position ps) (activeHandle ps)
              (draggedDimension (position ps) d event cellMin)
        | None => MoveNothing
        end
    end.

(** ** Tables, their cells and their grid *)

(** [CellAttrs] of [util.ts]: spans, stored widths, and whatever further
    attributes the host schema adds (never inspected here). *)
Record CellAttrs := {
  colspan : Z;
  rowspan : Z;
  colwidth : option (list Z);
  otherAttrs : list (string * string)
}.

(** [{ ...attrs, colwidth: colwidth }] *)
Definition withColwidth (a : CellAttrs) (cw : list Z) : CellAttrs :=
  {| colspan := colspan a; rowspan := rowspan a; colwidth := Some cw;
     otherAttrs := otherAttrs a |}.

(** A cell node, as far as this module looks at it. *)
Record Node := { attrs : CellAttrs; nodeSize : Z }.

(** The grid [TableMap.get(table)] returns: [map] holds, row by row, the
    offset (from the table's start) of the cell covering each slot. *)
Record TableMap := { width : Z; height : Z; map : list Z }.

(** A table node: [cells !! pos] is [table.nodeAt(pos)] for the offsets
    [pos] of its cells, [tableMap] is [TableMap.get(table)]. *)
Record Table := { cells : gmap Z Node; tableMap : TableMap }.

(** Modelled from the spec: [TableMap.colCount] of [tablemap.ts], which is
    not part of the sources at hand: "number of full grid columns strictly
    to the left of the cell's top-left slot", the top-left slot being the
    first slot of the row-major grid that holds the cell. A position that
    is not in the grid is an error. *)
Definition colCount (m : TableMap) (pos : Z) : option Z :=
  let i := indexOf (map m) pos in
  if decide (i = -1) then None else Some (i `mod` width m).

(** Modelled from the spec: [TableMap.rowCount], likewise absent: "number
    of full grid rows strictly above the cell's top-left slot". *)
Definition rowCount (m : TableMap) (pos : Z) : option Z :=
  let i := indexOf (map m) pos in
  if decide (i = -1) then None else Some (i `div` width m).

(** The editor state as the plugin reads it: the table around the cell
    positions it resolves ([$cell.node(-1)]), where that table's content
    starts ([$cell.start(-1)]), and the plugin's own state. *)
Record EditorState := {
  table : Table;
  tableStart : Z;
  pluginState : option ResizeState
}.

(** The view adds the two coordinate queries [edgeCell] makes. *)
Record EditorView := {
  state : EditorState;
  (** [view.posAtCoords({left, top})], reduced to the [pos] found *)
  posAtCoords : Z → Z → option Z;
  (** [cellAround(doc.resolve(pos))], reduced to the [$cell.pos] found *)
  cellAround : Z → option Z
}.

(** [$cell.nodeAfter] for [$cell = doc.resolve(cell)]: the node at the
    cell's offset in the table. *)
Definition nodeAfter (st : EditorState) (cell : Z) : option Node :=
  cells (table st) !! (cell - tableStart st).

(** [map.colCount($cell.pos - start) + $cell.nodeAfter!.attrs.colspan]:
    the grid column just after the span of the cell at [cell]. *)
Definition spanEndColumn (st : EditorState) (cell : Z) : option Z :=
  c ← colCount (tableMap (table st)) (cell - tableStart st);
  n ← nodeAfter st cell;
  Some (c + colspan (attrs n)).

(** [map.rowCount($cell.pos - start) + $cell.nodeAfter!.attrs.rowspan] *)
Definition spanEndRow (st : EditorState) (cell : Z) : option Z :=
  r ← rowCount (tableMap (table st)) (cell - tableStart st);
  n ← nodeAfter st cell;
  Some (r + rowspan (attrs n)).

(** ** Width redistribution *)

(** [zeroes(n)], that is [Array(n).fill(0)]; [Array] throws on a negative
    length. *)
Definition zeroes (n : Z) : option (list Z) :=
  if decide (0 ≤ n) then Some (replicate (Z.to_nat n) 0) else None.

(** One [tr.setNodeMarkup(pos, null, attrs)]. *)
Record MarkupStep := { stepPos : Z; stepAttrs : CellAttrs }.

(** The local span index of grid column [col] in the cell at offset [pos]:
    [attrs.colspan == 1 ? 0 : col - map.colCount(pos)]. *)
Definition spanIndex (m : TableMap) (a : CellAttrs) (col pos : Z) : option Z :=
  if decide (colspan a = 1) then Some 0
  else c ← colCount m pos; Some (col - c).

(** [attrs.colwidth && attrs.colwidth[index] == width] *)
Definition holdsWidth (cw : option (list Z)) (index w : Z) : bool :=
  match cw with
  | Some l => bool_decide (arrayGet l index = Some w)
  | None => false
  end.

(** The body of the loop of [updateColumnWidth] at one [row]: the step it
    adds to the transaction, or [None] when it [continue]s. *)
Definition widthStep (t : Table) (start col w row : Z)
    : option (option MarkupStep) :=
  let m := tableMap t in
  let mapIndex := row * width m + col in
  if decide (row ≠ 0 ∧
             arrayGet (map m) mapIndex = arrayGet (map m) (mapIndex - width m))
  then Some None
  else
    pos ← arrayGet (map m) mapIndex;
    node ← cells t !! pos;
    let a := attrs node in
    index ← spanIndex m a col pos;
    if holdsWidth (colwidth a) index w then Some None
    else
      old ← (match colwidth a with Some l => Some l | None => zeroes (colspan a) end);
      new ← arraySet old index w;
      Some (Some {| stepPos := start + pos; stepAttrs := withColwidth a new |}).

(** The steps the whole loop adds, in order, for grid column [col]. *)
Definition widthSteps (t : Table) (start col w : Z) : option (list MarkupStep) :=
  steps ← mapM (widthStep t start col w) (upto (height (tableMap t)));
  Some (omap id steps).

(** [updateColumnWidth(view, cell, width)]: the transaction handed to
    [view.dispatch], if any ([tr.docChanged] holds as soon as the
    transaction has a step). *)
Definition updateColumnWidth (view : EditorView) (cell w : Z)
    : option (option (list MarkupStep)) :=
  let st := state view in
  end_ ← spanEndColumn st cell;
  let col := end_ - 1 in
  tr ← widthSteps (table st) (tableStart st) col w;
  Some (if decide (tr = []) then None else Some tr).

(** Applying one [setNodeMarkup] step: the node at that position keeps its
    content, and so its size, and takes the new attributes. *)
Definition setNodeMarkup (start : Z) (cs : gmap Z Node) (s : MarkupStep)
    : gmap Z Node :=
  alter (λ n, {| attrs := stepAttrs s; nodeSize := nodeSize n |})
        (stepPos s - start) cs.

(** The table after [view.dispatch(tr)] for a transaction of
    [updateColumnWidth]. Its steps leave every span and node size as it
    was, which is all the grid is built from: the new table has the same
    [TableMap]. *)
Definition applySteps (start : Z) (t : Table) (tr : list MarkupStep) : Table :=
  {| cells := foldl (setNodeMarkup start) (cells t) tr;
     tableMap := tableMap t |}.

(** ** Handle decorations *)

(** [Decoration.widget(pos, dom)] with [dom.className = className]. *)
Record Decoration := { widgetPos : Z; className : string }.

(** The test of the column loop of [handleDecorations] at one [row], for
    the boundary after grid column [col - 1]. *)
Definition colHandleAt (m : TableMap) (col row : Z) : bool :=
  let index := col + row * width m - 1 in
  bool_decide
    ((col = width m ∨ arrayGet (map m) index ≠ arrayGet (map m) (index + 1)) ∧
     (row = 0 ∨ arrayGet (map m) index ≠ arrayGet (map m) (index - width m))).

(** The test of the row loop at one [col], for the boundary after grid
    row [row - 1]. *)
Definition rowHandleAt (m : TableMap) (row col : Z) : bool :=
  let index := (row - 1) * width m + col in
  bool_decide
    ((row = height m ∨ arrayGet (map m) index ≠ arrayGet (map m) (index + width m)) ∧
     (col = 0 ∨ arrayGet (map m) index ≠ arrayGet (map m) (index - 1))).

(** The rows at which the column loop pushes a widget, in loop order. *)
Definition colHandleRows (m : TableMap) (col : Z) : list Z :=
  filter (λ row, colHandleAt m col row) (upto (height m)).

(** The columns at which the row loop pushes a widget, in loop order. *)
Definition rowHandleCols (m : TableMap) (row : Z) : list Z :=
  filter (λ col, rowHandleAt m row col) (upto (width m)).

(** The widget pushed for grid slot [index]: it sits at the inner end of
    the cell covering that slot. *)
Definition widgetAt (t : Table) (start : Z) (cls : string) (index : Z)
    : option Decoration :=
  cellPos ← arrayGet (map (tableMap t)) index;
  node ← cells t !! cellPos;
  Some {| widgetPos := start + cellPos + nodeSize node - 1; className := cls |}.

(** [handleDecorations(state, cell, position)]. The inner [None] is the
    [undefined] returned when [position] is neither ['col'] nor ['row'].
    (The early [DecorationSet.empty] for a position without a table
    around it does not arise: positions here resolve inside [table].) *)
Definition handleDecorations (st : EditorState) (cell : Z)
    (position : typePositionCell) : option (option (list Decoration)) :=
  let t := table st in
  let m := tableMap t in
  let start := tableStart st in
  match position with
  | PosCol =>
      col ← spanEndColumn st cell;
      decorations ←
        mapM (λ row, widgetAt t start "column-resize-handle" (col + row * width m - 1))
             (colHandleRows m col);
      Some (Some decorations)
  | PosRow =>
      row ← spanEndRow st cell;
      decorations ←
        mapM (λ col, widgetAt t start "row-resize-handle" ((row - 1) * width m + col))
             (rowHandleCols m row);
      Some (Some decorations)
  | PosUndefined => Some None
  end.

(** ** Hit-testing *)

Inductive Side := SideLeft | SideRight | SideTop | SideBottom.

#[global] Instance Side_eq_dec : EqDecision Side.
Proof. solve_decision. Defined.

(** [edgeCell(view, event, side, minSize)]. A result that is not a number
    ([start + undefined]) is [None]. *)
Definition edgeCell (view : EditorView) (event : MouseEvent) (side : Side)
    (minSize : Z) : option Z :=
  let offset :=
    if decide (side = SideRight ∨ side = SideBottom) then - minSize else minSize in
  let found :=
    posAtCoords view
      (clientX event + (if decide (side = SideLeft ∨ side = SideRight) then offset else 0))
      (clientY event + (if decide (side = SideTop ∨ side = SideBottom) then offset else 0)) in
  match found with
  | None => Some (-1)
  | Some pos =>
      match cellAround view pos with
      | None => Some (-1)
      | Some cellPos =>
          if decide (side = SideRight ∨ side = SideBottom) then Some cellPos
          else
            let m := tableMap (table (state view)) in
            let start := tableStart (state view) in
            let index := indexOf (map m) (cellPos - start) in
            if decide (side = SideTop) then
              if decide (index < width m) then Some (-1)
              else p ← arrayGet (map m) (index - width m); Some (start + p)
            else
              if decide (width m ≠ 0 ∧ index `rem` width m = 0) then Some (-1)
              else p ← arrayGet (map m) (index - 1); Some (start + p)
      end
  end.

(** The chain of edge tests [handleMouseMove] runs on the rectangle of the
    cell under the pointer: the axis and the side of the first test that
    succeeds. *)
Definition edgeCandidate (r : Rect) (event : MouseEvent) (minSize : Z)
    : option (typePositionCell * Side) :=
  if decide (clientX event - left r ≤ minSize) then Some (PosCol, SideLeft)
  else if decide (right r - clientX event ≤ minSize) then Some (PosCol, SideRight)
  else if decide (top r - clientY event >= - minSize) then Some (PosRow, SideTop)
  else if decide (clientY event - bottom r >= - minSize) then Some (PosRow, SideBottom)
  else None.

(** [updateHandle(view, value, positionCell)]: the meta action of the
    transaction it dispatches. *)
Definition updateHandle (value : Z) (positionCell : typePositionCell) : Action :=
  {| setHandle := Some value; setDragging := None; setPosition := positionCell |}.

(** [handleMouseMove(view, event, minSize, cellMin, lastColumnResizable)]:
    the action it dispatches, or [None] when it dispatches nothing. *)
Definition handleMouseMove (view : EditorView) (event : MouseEvent)
    (minSize cellMin : Z) (lastColumnResizable : bool)
    : option (option Action) :=
  let st := state view in
  match pluginState st with
  | None => Some None
  | Some ps =>
      if isDragging (dragging ps) is Some _ then Some None
      else
        found ←
          match domCellAround (target event) with
          | Some el =>
              match edgeCandidate (boundingClientRect el) event minSize with
              | Some (positionCell, side) =>
                  cell ← edgeCell view event side minSize;
                  Some (cell, positionCell)
              | None => Some (-1, PosUndefined)
              end
          | None => Some (-1, PosUndefined)
          end;
        let '(cell, positionCell) := found in
        if decide (cell ≠ activeHandle ps) then
          if negb lastColumnResizable && bool_decide (cell ≠ -1) then
            end_ ← spanEndColumn st cell;
            let col := end_ - 1 in
            if decide (col = width (tableMap (table st)) - 1) then Some None
            else Some (Some (updateHandle cell positionCell))
          else Some (Some (updateHandle cell positionCell))
        else Some None
  end.

(** [handleMouseLeave(view)] *)
Definition handleMouseLeave (view : EditorView) : option Action :=
  match pluginState (state view) with
  | Some ps =>
      if decide (activeHandle ps > -1) then
        if isDragging (dragging ps) is Some _ then None
        else Some (updateHandle (-1) PosUndefined)
      else None
  | None => None
  end.

(** ** Starting and ending a drag *)

(** The loop of [currentColWidth] and [currentColHeight]: from the
    rendered size [domSize] and [parts = span], every stored size that is
    set (defined and not 0) among the first [span] ones is taken off
    [domSize] and one off [parts]. The result is the pair of both. *)
Definition unsetShare (domSize span : Z) (sizes : option (list Z)) : Z * Z :=
  match sizes with
  | Some l =>
      foldl (λ acc i,
               match arrayGet l i with
               | Some s => if decide (s ≠ 0) then (acc.1 - s, acc.2 - 1) else acc
               | None => acc
               end)
            (domSize, span) (upto span)
  | None => (domSize, span)
  end.

(** The number [currentColWidth] and [currentColHeight] return: a stored
    size, which is an integer here, or the quotient [dividend / divisor]
    of two integers. The quotient is a floating-point division, which may
    be a fraction, an infinity or [NaN]: the model keeps its two operands
    and does not carry it out. *)
Inductive Size :=
  | Whole (z : Z)
  | Quotient (dividend divisor : Z).

(** The common shape of [currentColWidth] and [currentColHeight]: the last
    stored size if it is set, else [domSize / parts], the rendered size
    [offsetSize] of the cell's element less the stored sizes over the
    number of slots left. *)
Definition currentSize (offsetSize span : Z) (sizes : option (list Z))
    : Size :=
  let last :=
    match sizes with
    | Some l => arrayGet l (Z.of_nat (length l) - 1)
    | None => None
    end in
  let measured :=
    let '(domSize, parts) := unsetShare offsetSize span sizes in
    Quotient domSize parts in
  match last with
  | Some s => if decide (s ≠ 0) then Whole s else measured
  | None => measured
  end.

(** [currentColWidth(view, cellPos, attrs)], given the [offsetWidth] of
    the cell's DOM element (what [view.domAtPos] leads to). *)
Definition currentColWidth (offsetWidth : Z) (a : CellAttrs) : Size :=
  currentSize offsetWidth (colspan a) (colwidth a).

(** [currentColHeight(view, cellPos, attrs)], given the [offsetHeight] of
    the cell's DOM element and the [rowheight] found among the cell's
    attributes (one the cell schema of this package does not declare:
    [None] unless the host does). *)
Definition currentColHeight (offsetHeight : Z) (a : CellAttrs)
    (rowheight : option (list Z)) : Size :=
  currentSize offsetHeight (rowspan a) rowheight.

(** The integer a size is, if it is one: a quotient is an integer when
    the division leaves no remainder. *)
Definition wholeSize (s : Size) : option Z :=
  match s with
  | Whole z => Some z
  | Quotient dividend divisor =>
      if decide (divisor ≠ 0 ∧ dividend `mod` divisor = 0)
      then Some (dividend `div` divisor) else None
  end.

(** [handleMouseDown(view, event, cellMin)]: the action it dispatches
    before it installs the listeners of the drag and returns [true], or
    [None] where it returns [false]. The rendered sizes and [rowheight]
    are given as for [currentColWidth] and [currentColHeight]. The plugin
    state of this model holds integers: a press whose anchor dimension is
    not one (of the two sizes, the one that is used) is outside it. *)
Definition handleMouseDown (view : EditorView) (event : MouseEvent)
    (offsetWidth offsetHeight : Z) (rowheight : option (list Z))
    : option (option Action) :=
  match pluginState (state view) with
  | None => Some None
  | Some ps =>
      if decide (activeHandle ps = -1) then Some None
      else if isDragging (dragging ps) is Some _ then Some None
      else
        cell ← nodeAfter (state view) (activeHandle ps);
        let startCoord :=
          if decide (position ps = PosCol) then clientX event
          else clientY event in
        startDimension ←
          wholeSize
            (if decide (position ps = PosCol)
             then currentColWidth offsetWidth (attrs cell)
             else currentColHeight offsetHeight (attrs cell) rowheight);
        Some (Some {| setHandle := None;
                      setDragging :=
                        Some (Drag {| startPosition := startCoord;
                                      startDimension := startDimension |});
                      setPosition := position ps |})
  end.

(** What a handler hands to [view.dispatch]: the steps of a document
    transaction, or a meta action of the plugin. *)
Inductive Dispatched :=
  | DispatchSteps (tr : list MarkupStep)
  | DispatchMeta (action : Action).

(** [finish(event)], the [mouseup] listener of a drag (and what [move]
    falls back to): its dispatches, in order. *)
Definition finish (view : EditorView) (event : MouseEvent) (cellMin : Z)
    : option (list Dispatched) :=
  match pluginState (state view) with
  | Some ps =>
      match isDragging (dragging ps) with
      | Some d =>
          r ← updateColumnWidth view (activeHandle ps)
                (draggedDimension (position ps) d event cellMin);
          let done :=
            DispatchMeta {| setHandle := None; setDragging := Some DragNull;
                            setPosition := PosUndefined |} in
          Some (match r with
                | Some tr => [DispatchSteps tr; done]
                | None => [done]
                end)
      | None => Some []
      end
  | None => Some []
  end.

(** ** The plugin's view properties *)

(** A position inside a template literal. *)
Definition positionText (p : typePositionCell) : string :=
  match p with
  | PosRow => "row"
  | PosCol => "col"
  | PosUndefined => "undefined"
  end.

(** [props.attributes]: the [class] set on the editor, if any. *)
Definition attributes (ps : option ResizeState) : option string :=
  match ps with
  | Some ps =>
      if decide (activeHandle ps > -1)
      then Some (positionText (position ps) +:+ "-resize-cursor")
      else None
  | None => None
  end.

(** [props.decorations]; the inner [None] is [undefined]. *)
Definition decorations (st : EditorState) : option (option (list Decoration)) :=
  match pluginState st with
  | Some ps =>
      if decide (activeHandle ps > -1)
      then handleDecorations st (activeHandle ps) (position ps)
      else Some None
  | None => Some None
  end.

End ColumnResizing.

Module Schema.

(** ** Attribute values *)

(** A JavaScript number, as far as attribute parsing tells numbers apart:
    an integer, or anything else ([NaN], a fraction, an infinity). *)
Inductive Num := NInt (z : Z) | NOther.

#[global] Instance Num_eq_dec : EqDecision Num.
Proof. solve_decision. Defined.

(** The values an attribute object ([MutableAttrs]) holds here. *)
Inductive Value :=
  | VUndefined
  | VNull
  | VNumber (n : Num)
  | VNumbers (l : list Z)
  | VString (s : string)
  | VOther (description : string).

(** [value != null] fails on [null] and [undefined] alike. *)
Definition isNullish (v : Value) : bool :=
  match v with VUndefined | VNull => true | _ => false end.

(** A DOM element, as far as [getAttribute] goes. *)
Record HTMLElement := { attributes : gmap string string }.

Definition getAttribute (dom : HTMLElement) (name : string) : option string :=
  attributes dom !! name.

(** [CellAttributes] and [RowAttributes]: the default value and the
    optional reader of one host-defined attribute. *)
Record CellAttributes := {
  default : Value;
  getFromDOM : option (HTMLElement → Value)
}.

(** ** Strings *)

Definition isDigit (c : ascii) : bool :=
  (48 <=? nat_of_ascii c)%nat && (nat_of_ascii c <=? 57)%nat.

(** The test [/^\d+(,\d+)*$/.test(s)], as the automaton of that
    expression: [afterDigit] tells whether the text read so far ends in a
    digit, the only place where a comma or the end may follow. *)
Fixpoint digitListFrom (afterDigit : bool) (s : string) : bool :=
  match s with
  | EmptyString => afterDigit
  | String c s' =>
      if isDigit c then digitListFrom true s'
      else if Ascii.eqb c "," then afterDigit && digitListFrom false s'
      else false
  end.

Definition isDigitList (s : string) : bool := digitListFrom false s.

(** [s.split(sep)] for a one-character separator. *)
Fixpoint split (sep : ascii) (s : string) : list string :=
  match s with
  | EmptyString => [EmptyString]
  | String c s' =>
      if Ascii.eqb c sep then EmptyString :: split sep s'
      else
        match split sep s' with
        | piece :: pieces => String c piece :: pieces
        | [] => [String c EmptyString]
        end
  end.

(** [Number(s)] for a string of digits: its decimal value. *)
Fixpoint decimalFrom (acc : Z) (s : string) : Z :=
  match s with
  | EmptyString => acc
  | String c s' => decimalFrom (10 * acc + (Z.of_nat (nat_of_ascii c) - 48)) s'
  end.

Definition decimal (s : string) : Z := decimalFrom 0 s.

(** ** Parsing cell and row attributes *)

(** One round of [for (const prop in extraAttrs)]: the attribute's reader,
    if it has one, and the assignment of what it returns unless that is
    [null] or [undefined]. *)
Definition readExtra (dom : HTMLElement) (result : gmap string Value)
    (entry : string * CellAttributes) : gmap string Value :=
  let value :=
    match getFromDOM entry.2 with
    | Some getter => getter dom
    | None => VUndefined
    end in
  if isNullish value then result else <[entry.1 := value]> result.

Section Parsing.

(** [Number(s)] on an arbitrary attribute string is left to the host. *)
Variable NumberOf : string → Num.

(** [Number(dom.getAttribute(name) || 1)] *)
Definition spanAttr (dom : HTMLElement) (name : string) : Num :=
  match getAttribute dom name with
  | Some s => if decide (s = EmptyString) then NInt 1 else NumberOf s
  | None => NInt 1
  end.

(** [getCellAttrs(dom, extraAttrs)] *)
Definition getCellAttrs (dom : HTMLElement + string)
    (extraAttrs : list (string * CellAttributes)) : gmap string Value :=
  match dom with
  | inr _ => ∅
  | inl dom =>
      let widths :=
        match getAttribute dom "data-colwidth" with
        | Some widthAttr =>
            if isDigitList widthAttr
            then Some (decimal <$> split "," widthAttr)
            else None
        | None => None
        end in
      let rowspan := spanAttr dom "rowspan" in
      let colspan := spanAttr dom "colspan" in
      let result : gmap string Value :=
        <["colspan" := VNumber colspan]>
        (<["rowspan" := VNumber rowspan]>
        (<["colwidth" :=
            match widths with
            | Some ws =>
                if decide (NInt (Z.of_nat (length ws)) = colspan)
                then VNumbers ws else VNull
            | None => VNull
            end]> ∅)) in
      foldl (readExtra dom) result extraAttrs
  end.

End Parsing.

(** [getRowAttrs(dom, extraAttrs)] *)
Definition getRowAttrs (dom : HTMLElement + string)
    (extraAttrs : list (string * CellAttributes)) : gmap string Value :=
  match dom with
  | inr _ => ∅
  | inl dom =>
      let result : gmap string Value :=
        <["rowheight" :=
            match getAttribute dom "data-rowheight" with
            | Some heightAttr =>
                if isDigitList heightAttr then VString heightAttr else VNull
            | None => VNull
            end]> ∅ in
      foldl (readExtra dom) result extraAttrs
  end.

(** The attribute declarations [tableNodes] builds for rows: [rowheight]
    with its default, then the host's. *)
Definition rowAttrs (extraRowAttrs : list (string * CellAttributes))
    : gmap string Value :=
  foldl (λ acc entry, <[entry.1 := default entry.2]> acc)
        (<["rowheight" := VNumber (NInt 60)]> ∅) extraRowAttrs.

(** The attribute declarations [tableNodes] builds for cells. *)
Definition cellAttrs (extraCellAttrs : list (string * CellAttributes))
    : gmap string Value :=
  foldl (λ acc entry, <[entry.1 := default entry.2]> acc)
        (<["colspan" := VNumber (NInt 1)]>
         (<["rowspan" := VNumber (NInt 1)]>
          (<["colwidth" := VNull]> ∅))) extraCellAttrs.

(** ** Writing cell and row attributes *)

(** [String(n)] for an integer [n]: its decimal digits, after a minus
    sign if it is negative. (From [10^21] on [String] writes an exponent;
    the properties below keep to smaller integers.) *)
Definition numberToString (z : Z) : string :=
  NilZero.string_of_int (Z.to_int z).

(** [widths.join(',')] *)
Definition joinWidths (widths : list Z) : string :=
  String.concat "," (numberToString <$> widths).

(** The writer of a host attribute, [setDOMAttr(value, attrs)], as the
    function from the attribute object it is given to the one it leaves. *)
Definition SetDOMAttr : Type := Value → gmap string Value → gmap string Value.

(** One round of the [for (const prop in extraAttrs)] of the writers:
    [value] is [node.attrs[prop]]. *)
Definition writeExtra (value : string → Value) (attrs : gmap string Value)
    (entry : string * option SetDOMAttr) : gmap string Value :=
  match entry.2 with
  | Some setter => setter (value entry.1) attrs
  | None => attrs
  end.

(** [node.attrs[prop]] for a cell node with typed attributes. *)
Definition cellAttr (a : ColumnResizing.CellAttrs) (prop : string) : Value :=
  if decide (prop = "colspan") then VNumber (NInt (ColumnResizing.colspan a))
  else if decide (prop = "rowspan") then VNumber (NInt (ColumnResizing.rowspan a))
  else if decide (prop = "colwidth") then
    match ColumnResizing.colwidth a with
    | Some l => VNumbers l
    | None => VNull
    end
  else
    match (list_to_map (ColumnResizing.otherAttrs a) : gmap string string) !! prop with
    | Some s => VString s
    | None => VUndefined
    end.

(** [setCellAttrs(node, extraAttrs)], for the attributes [a] of [node]. *)
Definition setCellAttrs (a : ColumnResizing.CellAttrs)
    (extraAttrs : list (string * option SetDOMAttr)) : gmap string Value :=
  let attrs : gmap string Value := ∅ in
  let attrs :=
    if decide (ColumnResizing.colspan a ≠ 1)
    then <["colspan" := VNumber (NInt (ColumnResizing.colspan a))]> attrs
    else attrs in
  let attrs :=
    if decide (ColumnResizing.rowspan a ≠ 1)
    then <["rowspan" := VNumber (NInt (ColumnResizing.rowspan a))]> attrs
    else attrs in
  let attrs :=
    match ColumnResizing.colwidth a with
    | Some l => <["data-colwidth" := VString (joinWidths l)]> attrs
    | None => attrs
    end in
  foldl (writeExtra (cellAttr a)) attrs extraAttrs.

(** Whether a value counts as true in a condition, where the model can
    tell: it cannot for a number that is not an integer (which may be
    [NaN]) nor for a value it knows nothing of. *)
Definition truthy (v : Value) : option bool :=
  match v with
  | VUndefined | VNull => Some false
  | VNumber (NInt z) => Some (bool_decide (z ≠ 0))
  | VNumber NOther => None
  | VNumbers _ => Some true
  | VString s => Some (bool_decide (s ≠ EmptyString))
  | VOther _ => None
  end.

(** [setRowAttrs(node, extraAttrs)], for the attribute object [nodeAttrs]
    of [node]. *)
Definition setRowAttrs (nodeAttrs : gmap string Value)
    (extraAttrs : list (string * option SetDOMAttr))
    : option (gmap string Value) :=
  let value (prop : string) :=
    match nodeAttrs !! prop with Some v => v | None => VUndefined end in
  set ← truthy (value "rowheight");
  let attrs : gmap string Value :=
    if set : bool then <["data-rowheight" := value "rowheight"]> ∅ else ∅ in
  Some (foldl (writeExtra value) attrs extraAttrs).

End Schema.

(** * Vocabulary of the specification, and sample data *)

Import ColumnResizing.

(** *** The axis of a drag *)

(** The pointer coordinate along the axis of a drag, in the words of the
    specification: [clientX] on the column axis, [clientY] on the row
    axis. *)
Definition axisCoordinate (axis : typePositionCell) (event : MouseEvent)
    : option Z :=
  match axis with
  | PosCol => Some (clientX event)
  | PosRow => Some (clientY event)
  | PosUndefined => None
  end.

(** *** Edits and the positions they move *)

(** "The edit shifts content after [P] by [+N]", in the words of the
    specification: every position after [P] is mapped [N] further,
    whichever side it is associated with, and so is [P] itself when it is
    taken with the content after it (bias 1). *)
Definition shiftsContentAfter (tr : Transaction) (P N : Z) : Prop :=
  mappingMap tr P 1 = P + N ∧
  ∀ q assoc, P < q → mappingMap tr q assoc = q + N.

(** The edit is made before [P]: it shifts [P] along with the content
    after it, whichever side [P] is associated with. *)
Definition shiftsContentFrom (tr : Transaction) (P N : Z) : Prop :=
  ∀ q assoc, P ≤ q → mappingMap tr q assoc = q + N.

(** The edit is made at [P] itself: it shifts the content after [P], and
    [P] stays where it is when it is taken with the content before it
    (bias -1). *)
Definition insertsAt (tr : Transaction) (P N : Z) : Prop :=
  shiftsContentAfter tr P N ∧ mappingMap tr P (-1) = P.

(** A sample edit: the transaction that inserts [size] positions of
    content at [point] and carries no meta action. Its mapping is the
    host's for an insertion: positions before [point] stay, positions
    after it move by [size], and [point] itself stays or moves with the
    side it is associated with. [cellsAfter] tells which positions of the
    new document point at a cell. *)
Definition insertion (point size : Z) (cellsAfter : Z → bool) : Transaction :=
  {| getMeta := None; docChanged := true;
     mappingMap := λ pos assoc,
       if decide (pos < point) then pos
       else if decide (pos = point ∧ assoc < 0) then pos
       else pos + size;
     pointsAtCell := cellsAfter |}.

(** *** A sample document

    A table of three rows and three columns whose content starts at
    position 10. The cell at offset 1 spans two columns and two rows; the
    other five cells are single slots. The cell at offset 11 already
    stores a width. *)

Definition sampleCell (cs rs : Z) (cw : option (list Z)) : Node :=
  {| attrs := {| colspan := cs; rowspan := rs; colwidth := cw;
                 otherAttrs := [("background", "#fff")] |};
     nodeSize := 4 |}.

Definition sampleMap : TableMap :=
  {| width := 3; height := 3;
     map := [ 1;  1;  5;
              1;  1; 11;
             17; 21; 25] |}.

Definition sampleTable : Table :=
  {| cells := list_to_map
       [(1, sampleCell 2 2 None); (5, sampleCell 1 1 None);
        (11, sampleCell 1 1 (Some [70])); (17, sampleCell 1 1 None);
        (21, sampleCell 1 1 None); (25, sampleCell 1 1 None)];
     tableMap := sampleMap |}.

Definition sampleState (ps : option ResizeState) : EditorState :=
  {| table := sampleTable; tableStart := 10; pluginState := ps |}.

(** A view on it: the first two grid columns are painted from x = 0 to
    x = 200 and the third from 200 to 300; every pointer used below is
    over the first grid row. *)
Definition sampleView (ps : option ResizeState) : EditorView :=
  {| state := sampleState ps;
     posAtCoords := λ x _, if decide (200 ≤ x) then Some 16 else Some 12;
     cellAround := λ pos,
       if decide (11 ≤ pos < 15) then Some 11
       else if decide (15 ≤ pos < 19) then Some 15 else None |}.

Definition sampleTD (l r : Z) : Element :=
  {| nodeName := "TD"; classList := Some [];
     boundingClientRect := {| left := l; right := r; top := 0; bottom := 40 |} |}.

Definition idle : ResizeState :=
  {| activeHandle := -1; dragging := DragFalse; position := PosUndefined |}.

(** *** Sample markup *)

(** [<td colspan="2" data-colwidth="100,200">] *)
Definition sampleTDMarkup : Schema.HTMLElement :=
  {| Schema.attributes := {[ "colspan" := "2"; "data-colwidth" := "100,200" ]} |}.

(** [<tr data-rowheight="60,80">] *)
Definition sampleTRMarkup : Schema.HTMLElement :=
  {| Schema.attributes := {[ "data-rowheight" := "60,80" ]} |}.

(** A host attribute with a reader. *)
Definition sampleExtraAttrs : list (string * Schema.CellAttributes) :=
  [("background",
    {| Schema.default := Schema.VNull;
       Schema.getFromDOM := Some (λ dom,
         match Schema.getAttribute dom "data-background" with
         | Some s => Schema.VString s
         | None => Schema.VNull
         end) |})].

(** What [Number] gives on strings of digits, and [NaN] elsewhere: enough
    of the host's [Number] for the sample markup. *)
Definition sampleNumber (s : string) : Schema.Num :=
  if Schema.digitListFrom false s && negb (bool_decide (s = EmptyString))
  then Schema.NInt (Schema.decimal s) else Schema.NOther.

(** *** The stored-width invariant *)

(** "[colwidth], when present, has length exactly [colspan]", on the
    attribute objects of the schema and on typed cell attributes. *)
Definition parsedWidthsMatchSpan (attrs : gmap string Schema.Value) : Prop :=
  ∀ ws, attrs !! "colwidth" = Some (Schema.VNumbers ws) →
        attrs !! "colspan" = Some (Schema.VNumber (Schema.NInt (Z.of_nat (length ws)))).

Definition widthsMatchSpan (a : CellAttrs) : Prop :=
  match colwidth a with
  | Some l => Z.of_nat (length l) = colspan a
  | None => True
  end.

#[global] Instance widthsMatchSpan_dec a : Decision (widthsMatchSpan a).
Proof. unfold widthsMatchSpan. destruct (colwidth a); apply _. Defined.

(** *** Vocabulary of the redistribution *)

(** The cell at offset [pos] intersects grid column [col]: some row of
    the grid holds it there. *)
Definition inColumn (m : TableMap) (col pos : Z) : Prop :=
  ∃ row, 0 ≤ row < height m ∧ arrayGet (map m) (row * width m + col) = Some pos.

(** The width sequence of a cell, an absent one read as all unset (0). *)
Definition storedWidths (a : CellAttrs) : list Z :=
  match colwidth a with
  | Some l => l
  | None => replicate (Z.to_nat (colspan a)) 0
  end.

(** The table once [updateColumnWidth] has run with outcome [r]. *)
Definition tableAfter (start : Z) (t : Table) (r : option (list MarkupStep))
    : Table :=
  match r with
  | Some tr => applySteps start t tr
  | None => t
  end.

(** Grid slot [i] is sound: it holds a cell of the table whose span, from
    its first column on, covers the slot's column and fits the grid. *)
Definition slotSound (t : Table) (i : Z) : bool :=
  let m := tableMap t in
  match arrayGet (map m) i with
  | Some pos =>
      match cells t !! pos, colCount m pos with
      | Some n, Some c =>
          bool_decide (c ≤ i `mod` width m < c + colspan (attrs n) ∧
                       c + colspan (attrs n) ≤ width m)
      | _, _ => false
      end
  | None => false
  end.

(** A table whose grid is sound at every slot and whose cells keep the
    stored-width invariant. *)
Definition wellFormed (t : Table) : bool :=
  let m := tableMap t in
  bool_decide (0 < width m ∧ 0 ≤ height m ∧
               Z.of_nat (length (map m)) = width m * height m) &&
  forallb (slotSound t) (upto (width m * height m)) &&
  bool_decide (map_Forall (λ _ n, widthsMatchSpan (attrs n)) (cells t)).

(** What the loop makes of the attributes [a] of a cell it rewrites at
    span index [index]: the stored sequence (or zeroes) with [w] there. *)
Definition rewrites (w : Z) (a : CellAttrs) (index : Z) (a' : CellAttrs) : Prop :=
  holdsWidth (colwidth a) index w = false ∧
  (colwidth a = None → 0 ≤ colspan a) ∧
  ∃ new, arraySet (storedWidths a) index w = Some new ∧ a' = withColwidth a new.

(** "Only the entry at the target index changes": what resizing grid
    column [k] to [w] may do to a table [t], giving [t']. *)
Definition onlyColumnEntryChanged (t : Table) (k w : Z) (t' : Table) : Prop :=
  let m := tableMap t in
  tableMap t' = m ∧
  ∀ pos node, cells t !! pos = Some node →
    ∃ node', cells t' !! pos = Some node' ∧
      nodeSize node' = nodeSize node ∧
      colspan (attrs node') = colspan (attrs node) ∧
      rowspan (attrs node') = rowspan (attrs node) ∧
      otherAttrs (attrs node') = otherAttrs (attrs node) ∧
      (¬ inColumn m k pos → node' = node) ∧
      (inColumn m k pos →
       ∃ index,
         spanIndex m (attrs node) k pos = Some index ∧
         arrayGet (storedWidths (attrs node')) index = Some w ∧
         (∀ j, j ≠ index →
               arrayGet (storedWidths (attrs node')) j =
               arrayGet (storedWidths (attrs node)) j) ∧
         (colCount m pos = Some (k - 1) → colspan (attrs node) = 3 →
          index = 1)).

(** *** A second sample: a cell over three columns

    Two rows, three columns, content starting at position 10. The cell at
    offset 1 spans all three columns and stores [40, 50, 60]; below it the
    cell at offset 7 spans the first two columns and the cell at offset 11
    fills the third. Resizing from the cell at offset 7 targets the middle
    column. *)

Definition spanTable : Table :=
  {| cells := list_to_map
       [(1, sampleCell 3 1 (Some [40; 50; 60]));
        (7, sampleCell 2 1 None); (11, sampleCell 1 1 None)];
     tableMap := {| width := 3; height := 2;
                    map := [1; 1; 1;
                            7; 7; 11] |} |}.

Definition spanView : EditorView :=
  {| state := {| table := spanTable; tableStart := 10; pluginState := None |};
     posAtCoords := λ _ _, None;
     cellAround := λ _, None |}.

(** *** Vocabulary of the decoration placement *)

(** The cell occupying grid slot [(row, col)]. *)
Definition slot (m : TableMap) (row col : Z) : option Z :=
  arrayGet (map m) (row * width m + col).

(** The specification's condition for a marker on the column boundary
    [boundary] (just right of grid column [boundary - 1]) at [row]: the
    slot to the right is another cell or the boundary is the grid's right
    edge, and the slot above is another cell or this is the top row. *)
Definition columnMarkerExpected (m : TableMap) (boundary row : Z) : Prop :=
  (boundary = width m ∨ slot m row (boundary - 1) ≠ slot m row boundary) ∧
  (row = 0 ∨ slot m row (boundary - 1) ≠ slot m (row - 1) (boundary - 1)).

(** The same with rows and columns swapped, for the row boundary
    [boundary] (just below grid row [boundary - 1]) at [col]. *)
Definition rowMarkerExpected (m : TableMap) (boundary col : Z) : Prop :=
  (boundary = height m ∨ slot m (boundary - 1) col ≠ slot m boundary col) ∧
  (col = 0 ∨ slot m (boundary - 1) col ≠ slot m (boundary - 1) (col - 1)).

(** The marker a decoration loop places for the cell at offset [cellPos]. *)
Definition markerOf (t : Table) (start : Z) (cls : string) (cellPos : Z)
    (d : Decoration) : Prop :=
  ∃ node, cells t !! cellPos = Some node ∧
          d = {| widgetPos := start + cellPos + nodeSize node - 1;
                 className := cls |}.

(** The cell at offset [p] occupies exactly the slots of rows [r], [r+1]
    and columns [c], [c+1], inside the grid. *)
Definition occupiesTwoByTwo (m : TableMap) (p r c : Z) : Prop :=
  0 ≤ r ∧ r + 2 ≤ height m ∧ 0 ≤ c ∧ c + 2 ≤ width m ∧
  ∀ row col, 0 ≤ row < height m → 0 ≤ col < width m →
    (slot m row col = Some p ↔ r ≤ row ≤ r + 1 ∧ c ≤ col ≤ c + 1).

#[global] Instance columnMarkerExpected_dec m b row :
  Decision (columnMarkerExpected m b row).
Proof. unfold columnMarkerExpected. apply _. Defined.

#[global] Instance rowMarkerExpected_dec m b col :
  Decision (rowMarkerExpected m b col).
Proof. unfold rowMarkerExpected. apply _. Defined.

(** *** Vocabulary of the handlers *)

(** An element that is a table cell, and one that is the editor's root. *)
Definition isCellElement (e : Element) : Prop :=
  nodeName e = "TD" ∨ nodeName e = "TH".

Definition isEditorRoot (e : Element) : Prop :=
  ∃ cl, classList e = Some cl ∧ "ProseMirror" ∈ cl.

(** The sum of a list of sizes, and the number of its unset (0) entries. *)
Definition sumSizes (l : list Z) : Z := foldr Z.add 0 l.

Definition unsetCount (l : list Z) : Z :=
  Z.of_nat (length (filter (λ x, x = 0) l)).

(** The sizes a cell stores along one axis: its list, or nothing set in
    any of its [span] slots. *)
Definition storedSizes (span : Z) (sizes : option (list Z)) : list Z :=
  match sizes with
  | Some l => l
  | None => replicate (Z.to_nat span) 0
  end.

(** The view after a transaction that leaves the document alone: the
    plugin state is what [apply] made of it. *)
Definition withPluginState (view : EditorView) (ps : ResizeState) : EditorView :=
  {| state := {| table := table (state view);
                 tableStart := tableStart (state view);
                 pluginState := Some ps |};
     posAtCoords := posAtCoords view;
     cellAround := cellAround view |}.

(** The editor state after a document change the plugin state went
    through. *)
Definition withResizeState (st : EditorState) (ps : ResizeState) : EditorState :=
  {| table := table st; tableStart := tableStart st; pluginState := Some ps |}.

(** What a pointer move resolves to before it looks at the plugin state:
    the edge cell (or [-1]) and the axis. *)
Definition resolvedEdge (view : EditorView) (event : MouseEvent) (minSize : Z)
    : option (Z * typePositionCell) :=
  match domCellAround (target event) with
  | Some el =>
      match edgeCandidate (boundingClientRect el) event minSize with
      | Some (positionCell, side) =>
          cell ← edgeCell view event side minSize;
          Some (cell, positionCell)
      | None => Some (-1, PosUndefined)
      end
  | None => Some (-1, PosUndefined)
  end.

(** *** Rendering attribute objects *)

(** The integers [String] writes in plain digits rather than with an
    exponent. *)
Definition plainInteger (z : Z) : Prop := Z.abs z < 10 ^ 21.

(** The text the host's serializer sets on an element for an attribute
    value, [String(value)], where the model knows it. *)
Definition attributeText (v : Schema.Value) : option string :=
  match v with
  | Schema.VNumber (Schema.NInt z) =>
      if decide (plainInteger z) then Some (Schema.numberToString z) else None
  | Schema.VString s => Some s
  | _ => None
  end.

(** [dom] is an element the host renders from the attribute object
    [attrs]: it carries one attribute for each entry that is neither
    [null] nor [undefined], holding the text of its value, and no other
    attribute. *)
Definition renders (attrs : gmap string Schema.Value)
    (dom : Schema.HTMLElement) : Prop :=
  ∀ name,
    match attrs !! name with
    | Some v =>
        if Schema.isNullish v then Schema.getAttribute dom name = None
        else ∀ text, attributeText v = Some text →
                     Schema.getAttribute dom name = Some text
    | None => Schema.getAttribute dom name = None
    end.

(** No writer of [setters] touches the entry [name] of the attribute
    object it is given. *)
Definition keepsAttribute (name : string)
    (setters : list (string * option Schema.SetDOMAttr)) : Prop :=
  Forall (λ entry, ∀ setter, entry.2 = Some setter →
            ∀ v attrs, setter v attrs !! name = attrs !! name) setters.

(** What a cell's [colwidth] is read back as. *)
Definition colwidthReadBack (a : CellAttrs) : Schema.Value :=
  match colwidth a with
  | Some l =>
      if decide (l ≠ [] ∧ Z.of_nat (length l) = colspan a)
      then Schema.VNumbers l else Schema.VNull
  | None => Schema.VNull
  end.

(** A string of digits only. *)
Fixpoint allDigits (s : string) : bool :=
  match s with
  | EmptyString => true
  | String c s' => Schema.isDigit c && allDigits s'
  end.

(** The element that carries exactly the attributes of [attrs] whose text
    is known. *)
Definition render (attrs : gmap string Schema.Value) : Schema.HTMLElement :=
  {| Schema.attributes :=
       omap (λ v, if Schema.isNullish v then None else attributeText v) attrs |}.

(** *** Sample handles and transactions *)

(** A state whose handle is the cell at position 11 of the sample
    document. *)
Definition atHandle (drag : DraggingField) (axis : typePositionCell)
    : ResizeState :=
  {| activeHandle := 11; dragging := drag; position := axis |}.

(** The transaction that carries a meta action of the plugin and leaves
    the document alone. *)
Definition metaTransaction (action : Action) : Transaction :=
  {| getMeta := Some action; docChanged := false;
     mappingMap := λ pos _, pos; pointsAtCell := λ _, true |}.

(** A pointer event over the cell painted from [l] to [r]. *)
Definition pointerAt (x y l r : Z) : MouseEvent :=
  {| clientX := x; clientY := y; which := 1; target := [sampleTD l r] |}.

(** The view on a table that came out of a resize of the sample table. *)
Definition viewAfter (r : option (list MarkupStep)) : EditorView :=
  {| state := {| table := tableAfter 10 sampleTable r; tableStart := 10;
                 pluginState := None |};
     posAtCoords := λ _ _, None;
     cellAround := λ _, None |}.

(** * Properties *)

(** ** The drag preview *)

(** C2: for a drag with anchor coordinate [a = startPosition], anchor
    dimension [d = startDimension] and minimum cell size [m], a pointer
    move to coordinate [c] along the drag's axis gives the dimension
    [max(m, d + (c - a))], and that is the dimension the [mousemove]
    listener of the drag previews while a button is pressed. *)
Theorem draggedDimension_is_clamped_offset
    (ps : ResizeState) (drag : Dragging) (event : MouseEvent) (m c : Z) :
  dragging ps = Drag drag →
  axisCoordinate (position ps) event = Some c →
  let live := Z.max m (startDimension drag + (c - startPosition drag)) in
  draggedDimension (position ps) drag event m = live ∧
  (which event ≠ 0 →
   move (Some ps) event m = MovePreview (position ps) (activeHandle ps) live).
Proof.
  intros Hdrag Hc live. subst live.
  assert (draggedDimension (position ps) drag event m =
          Z.max m (startDimension drag + (c - startPosition drag))) as Hd.
  { unfold draggedDimension.
    destruct (position ps); simpl in Hc; simplify_eq; by case_decide. }
  split; [exact Hd|].
  intros Hw. unfold move. rewrite decide_False by done.
  rewrite Hdrag. simpl. by rewrite Hd.
Qed.

(** The scenario of the specification: anchor dimension 100, anchor
    coordinate 50, minimum 25, pointer at 10: the preview is 60. *)
Lemma draggedDimension_is_clamped_offset_witness :
  let ps := {| activeHandle := 7;
               dragging := Drag {| startPosition := 50; startDimension := 100 |};
               position := PosCol |} in
  let event := {| clientX := 10; clientY := 300; which := 1; target := [] |} in
  draggedDimension PosCol {| startPosition := 50; startDimension := 100 |} event 25 = 60 ∧
  move (Some ps) event 25 = MovePreview PosCol 7 60.
Proof.
  intros ps event.
  destruct (draggedDimension_is_clamped_offset ps
              {| startPosition := 50; startDimension := 100 |} event 25 10
              eq_refl eq_refl) as [Hd Hm].
  split; [exact Hd|]. apply Hm. simpl. lia.
Defined.

(** ** The state reducer on document changes *)

(** C3, amended: a state with active handle [P >= 0] meets a
    document-changing transaction without plugin meta action. If the edit
    is made before [P], so that it shifts [P] and the content after it by
    [+N], and the shifted position points at a cell, the new active handle
    is [P + N]. If the edit is made at [P] itself, the content after [P]
    is shifted by [+N] but the handle is not: it stays at [P] if that
    points at a cell, and is [-1] otherwise. If the mapped position does
    not point at a cell any more, the new active handle is [-1]. *)
Theorem apply_remaps_active_handle (st : ResizeState) (tr : Transaction) :
  0 ≤ activeHandle st →
  getMeta tr = None →
  docChanged tr = true →
  let P := activeHandle st in
  (∀ N, shiftsContentFrom tr P N → pointsAtCell tr (P + N) = true →
        activeHandle (apply st tr) = P + N) ∧
  (∀ N, insertsAt tr P N →
        activeHandle (apply st tr) = (if pointsAtCell tr P then P else -1)) ∧
  (pointsAtCell tr (mappingMap tr P (-1)) = false →
   activeHandle (apply st tr) = -1).
Proof.
  intros HP Hmeta Hdoc P. subst P. unfold apply.
  rewrite Hmeta, Hdoc, decide_True by lia. simpl.
  split_and!.
  - intros N Hshift Hcell. rewrite (Hshift (activeHandle st) (-1)) by lia.
    by rewrite Hcell.
  - intros N [_ Hstay]. by rewrite Hstay.
  - intros ->. done.
Qed.

(** The handle at 12: three positions inserted at 5 move it to 15; a cell
    of four positions inserted at 12 leaves it at 12, on the new cell;
    and when the mapped position is no cell any more it is [-1]. *)
Lemma apply_remaps_active_handle_witness :
  let st := {| activeHandle := 12; dragging := DragFalse; position := PosCol |} in
  let before := insertion 5 3 (λ pos, bool_decide (pos = 15)) in
  let here := insertion 12 4 (λ pos, bool_decide (pos = 12 ∨ pos = 16)) in
  let deleted := {| getMeta := None; docChanged := true;
                    mappingMap := λ pos _, if decide (12 ≤ pos) then 12 else pos;
                    pointsAtCell := λ _, false |} in
  activeHandle (apply st before) = 12 + 3 ∧
  activeHandle (apply st here) = 12 ∧
  activeHandle (apply st deleted) = -1.
Proof.
  intros st before here deleted. split_and!.
  - apply (proj1 (apply_remaps_active_handle st before ltac:(simpl; lia)
                    eq_refl eq_refl) 3); [|reflexivity].
    intros q assoc Hq. simpl in *. repeat case_decide; lia.
  - apply (proj1 (proj2 (apply_remaps_active_handle st here ltac:(simpl; lia)
                           eq_refl eq_refl)) 4).
    split; [split|reflexivity]; [reflexivity|].
    intros q assoc Hq. simpl in *. repeat case_decide; lia.
  - apply (proj2 (proj2 (apply_remaps_active_handle st deleted
                           ltac:(simpl; lia) eq_refl eq_refl)));
      reflexivity.
Defined.

(** C3, as it is worded, fails: a cell of four positions inserted at the
    handle's position 12 shifts the content after 12 by 4, the old cell
    included, which is at 16 afterwards; the handle is mapped with bias
    -1 and stays at 12. *)
Lemma apply_insertion_at_handle_keeps_position :
  getMeta (insertion 12 4 (λ pos, bool_decide (pos = 12 ∨ pos = 16))) = None ∧
  docChanged (insertion 12 4 (λ pos, bool_decide (pos = 12 ∨ pos = 16))) = true ∧
  shiftsContentAfter
    (insertion 12 4 (λ pos, bool_decide (pos = 12 ∨ pos = 16))) 12 4 ∧
  activeHandle
    (apply {| activeHandle := 12; dragging := DragFalse; position := PosCol |}
       (insertion 12 4 (λ pos, bool_decide (pos = 12 ∨ pos = 16)))) = 12 ∧
  activeHandle
    (apply {| activeHandle := 12; dragging := DragFalse; position := PosCol |}
       (insertion 12 4 (λ pos, bool_decide (pos = 12 ∨ pos = 16)))) ≠ 12 + 4.
Proof.
  split_and!; [reflexivity|reflexivity| |reflexivity|].
  - split; [reflexivity|].
    intros q assoc Hq. simpl. repeat case_decide; lia.
  - intros Heq. vm_compute in Heq. discriminate Heq.
Defined.

(** C10: on a document-changing transaction without plugin meta action,
    a state whose active handle is above [-1] keeps its [dragging] field,
    has its handle mapped (or reset to [-1]), and loses its axis: the new
    [position] is [undefined] whether or not the handle survives. *)
Theorem apply_docChanged_drops_position (st : ResizeState) (tr : Transaction) :
  activeHandle st > -1 →
  getMeta tr = None →
  docChanged tr = true →
  let mapped := mappingMap tr (activeHandle st) (-1) in
  dragging (apply st tr) = dragging st ∧
  position (apply st tr) = PosUndefined ∧
  activeHandle (apply st tr) = (if pointsAtCell tr mapped then mapped else -1).
Proof.
  intros Hh Hmeta Hdoc mapped. subst mapped. unfold apply.
  rewrite Hmeta, Hdoc, decide_True by done. done.
Qed.

Lemma apply_docChanged_drops_position_witness :
  let st := {| activeHandle := 12;
               dragging := Drag {| startPosition := 50; startDimension := 100 |};
               position := PosRow |} in
  let tr := {| getMeta := None; docChanged := true;
               mappingMap := λ pos _, pos + 3;
               pointsAtCell := λ pos, bool_decide (pos = 15) |} in
  dragging (apply st tr) = Drag {| startPosition := 50; startDimension := 100 |} ∧
  position (apply st tr) = PosUndefined ∧
  activeHandle (apply st tr) = 15.
Proof.
  intros st tr.
  exact (apply_docChanged_drops_position st tr ltac:(simpl; lia) eq_refl eq_refl).
Defined.

(** ** Hit-testing on pointer moves *)

(** C7: while no drag is on, a pointer move over a cell with rectangle
    [(left, right, top, bottom)] tries the edges in the order left, right,
    top, bottom, with the comparisons [x - left <= minSize],
    [right - x <= minSize], [top - y >= -minSize], [y - bottom >= -minSize]
    as they are written; the first two give a column candidate, the last
    two a row candidate, and the move handler goes on with the candidate
    found. *)
Theorem handleMouseMove_edge_tests
    (view : EditorView) (event : MouseEvent) (minSize cellMin : Z)
    (ps : ResizeState) (el : Element) :
  pluginState (state view) = Some ps →
  isDragging (dragging ps) = None →
  domCellAround (target event) = Some el →
  let r := boundingClientRect el in
  let x := clientX event in
  let y := clientY event in
  let candidate := edgeCandidate r event minSize in
  (x - left r ≤ minSize → candidate = Some (PosCol, SideLeft)) ∧
  (¬ x - left r ≤ minSize → right r - x ≤ minSize →
   candidate = Some (PosCol, SideRight)) ∧
  (¬ x - left r ≤ minSize → ¬ right r - x ≤ minSize →
   top r - y >= - minSize → candidate = Some (PosRow, SideTop)) ∧
  (¬ x - left r ≤ minSize → ¬ right r - x ≤ minSize →
   ¬ top r - y >= - minSize → y - bottom r >= - minSize →
   candidate = Some (PosRow, SideBottom)) ∧
  (¬ x - left r ≤ minSize → ¬ right r - x ≤ minSize →
   ¬ top r - y >= - minSize → ¬ y - bottom r >= - minSize →
   candidate = None) ∧
  handleMouseMove view event minSize cellMin true =
    match candidate with
    | Some (axis, side) =>
        cell ← edgeCell view event side minSize;
        Some (if decide (cell ≠ activeHandle ps)
              then Some (updateHandle cell axis) else None)
    | None =>
        Some (if decide (-1 ≠ activeHandle ps)
              then Some (updateHandle (-1) PosUndefined) else None)
    end.
Proof.
  intros Hps Hdrag Hel r x y candidate.
  subst r x y candidate.
  split_and!.
  1-5: unfold edgeCandidate; intros; repeat case_decide; done.
  unfold handleMouseMove. rewrite Hps, Hdrag, Hel.
  destruct (edgeCandidate _ _ _) as [[axis side]|]; simpl.
  - destruct (edgeCell view event side minSize) as [cell|]; simpl; [|done].
    by case_decide.
  - by case_decide.
Qed.

(** Over the integers the two vertical tests say what the horizontal
    ones say, turned by a quarter: within [minSize] below the top edge,
    within [minSize] above the bottom edge. The flipped signs are a
    matter of notation. *)
Lemma edgeCandidate_vertical_tests (r : Rect) (event : MouseEvent) (minSize : Z) :
  (top r - clientY event >= - minSize ↔ clientY event - top r ≤ minSize) ∧
  (clientY event - bottom r >= - minSize ↔ bottom r - clientY event ≤ minSize) ∧
  edgeCandidate r event minSize =
    (if decide (clientX event - left r ≤ minSize) then Some (PosCol, SideLeft)
     else if decide (right r - clientX event ≤ minSize) then Some (PosCol, SideRight)
     else if decide (clientY event - top r ≤ minSize) then Some (PosRow, SideTop)
     else if decide (bottom r - clientY event ≤ minSize) then Some (PosRow, SideBottom)
     else None).
Proof.
  split_and!; [lia|lia|].
  unfold edgeCandidate. repeat case_decide; done || lia.
Qed.

(** A pointer 2px inside the bottom of a cell and far from its sides: the
    top test [0 - 38 >= -5] fails, the bottom test [38 - 40 >= -5] holds. *)
Lemma handleMouseMove_edge_tests_witness :
  let event := {| clientX := 100; clientY := 38; which := 0;
                  target := [sampleTD 0 200] |} in
  edgeCandidate (boundingClientRect (sampleTD 0 200)) event 5
    = Some (PosRow, SideBottom) ∧
  handleMouseMove (sampleView (Some idle)) event 5 25 true
    = Some (Some (updateHandle 11 PosRow)).
Proof.
  intros event.
  destruct (handleMouseMove_edge_tests (sampleView (Some idle)) event 5 25
              idle (sampleTD 0 200) eq_refl eq_refl eq_refl)
    as (_ & _ & _ & Hbottom & _ & Hmove).
  split.
  - apply Hbottom; simpl; lia.
  - rewrite Hmove. reflexivity.
Defined.

(** C8: with [lastColumnResizable] off, a pointer move that resolves an
    edge on a cell whose span ends in the last grid column dispatches
    nothing: the handle is not set and the state stays as it is. *)
Theorem handleMouseMove_last_column_suppressed
    (view : EditorView) (event : MouseEvent) (minSize cellMin : Z)
    (ps : ResizeState) (el : Element) (axis : typePositionCell) (side : Side)
    (cell c : Z) (n : Node) :
  let st := state view in
  pluginState st = Some ps →
  isDragging (dragging ps) = None →
  domCellAround (target event) = Some el →
  edgeCandidate (boundingClientRect el) event minSize = Some (axis, side) →
  edgeCell view event side minSize = Some cell →
  cell ≠ -1 →
  colCount (tableMap (table st)) (cell - tableStart st) = Some c →
  nodeAfter st cell = Some n →
  c + colspan (attrs n) - 1 = width (tableMap (table st)) - 1 →
  handleMouseMove view event minSize cellMin false = Some None.
Proof.
  intros st Hps Hdrag Hel Hcand Hcell Hne Hc Hn Hlast. subst st.
  unfold handleMouseMove. rewrite Hps, Hdrag, Hel, Hcand, Hcell. simpl.
  case_decide; [|done].
  rewrite bool_decide_true by done. simpl.
  unfold spanEndColumn. rewrite Hc, Hn. simpl.
  by rewrite decide_True by lia.
Qed.

(** The pointer sits 2px inside the right edge of the cell at position 15,
    which fills the third and last column. *)
Lemma handleMouseMove_last_column_suppressed_witness :
  let event := {| clientX := 298; clientY := 20; which := 0;
                  target := [sampleTD 200 300] |} in
  handleMouseMove (sampleView (Some idle)) event 5 25 false = Some None ∧
  handleMouseMove (sampleView (Some idle)) event 5 25 true
    = Some (Some (updateHandle 15 PosCol)).
Proof.
  intros event. split; [|reflexivity].
  apply (handleMouseMove_last_column_suppressed (sampleView (Some idle)) event
           5 25 idle (sampleTD 200 300) PosCol SideRight 15 2
           (sampleCell 1 1 None));
    try reflexivity; simpl; lia.
Defined.

(** ** Attribute parsing *)

(** The host's attributes leave alone every key that is not theirs. *)
Lemma foldl_readExtra_lookup (dom : Schema.HTMLElement)
    (extraAttrs : list (string * Schema.CellAttributes))
    (result : gmap string Schema.Value) (k : string) :
  k ∉ extraAttrs.*1 →
  foldl (Schema.readExtra dom) result extraAttrs !! k = result !! k.
Proof.
  revert result.
  induction extraAttrs as [|[prop spec] rest IH]; intros result Hk; [done|].
  rewrite fmap_cons, not_elem_of_cons in Hk. destruct Hk as [Hne Hk].
  simpl in Hne. simpl. rewrite IH by done.
  unfold Schema.readExtra. simpl.
  destruct (Schema.isNullish _); [done|]. by rewrite lookup_insert_ne.
Qed.

(** Parsing a cell keeps a width list only when it is as long as the
    parsed [colspan]; otherwise [colwidth] is [null]. *)
Lemma getCellAttrs_widths_match_span (NumberOf : string → Schema.Num)
    (dom : Schema.HTMLElement)
    (extraAttrs : list (string * Schema.CellAttributes)) :
  "colspan" ∉ extraAttrs.*1 →
  "colwidth" ∉ extraAttrs.*1 →
  let result := Schema.getCellAttrs NumberOf (inl dom) extraAttrs in
  parsedWidthsMatchSpan result ∧
  (result !! "colwidth" = Some Schema.VNull ∨
   ∃ ws, result !! "colwidth" = Some (Schema.VNumbers ws)).
Proof.
  intros Hspan Hwidth result. subst result. unfold parsedWidthsMatchSpan.
  unfold Schema.getCellAttrs.
  rewrite !foldl_readExtra_lookup by done.
  rewrite lookup_insert_eq, lookup_insert_ne, lookup_insert_ne, lookup_insert_eq
    by done.
  destruct (Schema.getAttribute dom "data-colwidth") as [widthAttr|];
    [destruct (Schema.isDigitList widthAttr)|]; try case_decide;
    split; intros; simplify_eq; eauto.
  congruence.
Qed.

(** C9: the row parser keeps the text of a well-formed [data-rowheight]
    attribute as it is: for [data-rowheight="60,80"] the [rowheight] it
    returns is the string ["60,80"], and for no element is it a sequence
    of numbers, whereas the cell parser turns the same text under
    [data-colwidth] into [[60; 80]]; the default the schema declares for
    [rowheight] is the single number 60. An absent or malformed attribute
    gives [null]. *)
Theorem getRowAttrs_rowheight_is_text :
  Schema.getRowAttrs (inl sampleTRMarkup) [] !! "rowheight"
    = Some (Schema.VString "60,80") ∧
  Schema.getCellAttrs sampleNumber
      (inl {| Schema.attributes :=
                {[ "colspan" := "2"; "data-colwidth" := "60,80" ]} |}) []
    !! "colwidth" = Some (Schema.VNumbers [60; 80]) ∧
  Schema.rowAttrs [] !! "rowheight" = Some (Schema.VNumber (Schema.NInt 60)) ∧
  (∀ dom ws, Schema.getRowAttrs (inl dom) [] !! "rowheight"
               ≠ Some (Schema.VNumbers ws)) ∧
  (∀ dom, match Schema.getAttribute dom "data-rowheight" with
          | Some text =>
              Schema.getRowAttrs (inl dom) [] !! "rowheight" =
                Some (if Schema.isDigitList text then Schema.VString text
                      else Schema.VNull)
          | None =>
              Schema.getRowAttrs (inl dom) [] !! "rowheight" = Some Schema.VNull
          end).
Proof.
  split_and!.
  - reflexivity.
  - reflexivity.
  - reflexivity.
  - intros dom ws. unfold Schema.getRowAttrs. simpl.
    rewrite lookup_insert_eq.
    destruct (Schema.getAttribute dom "data-rowheight") as [text|];
      [destruct (Schema.isDigitList text)|]; done.
  - intros dom. unfold Schema.getRowAttrs. simpl.
    rewrite lookup_insert_eq.
    by destruct (Schema.getAttribute dom "data-rowheight").
Qed.

(** ** Width redistribution *)

Section ArrayFacts.
Context {A : Type}.
Implicit Types (a : list A) (i j : Z) (v : A).

Lemma arraySet_Some a i v new :
  arraySet a i v = Some new →
  0 ≤ i < Z.of_nat (length a) ∧ new = <[Z.to_nat i := v]> a.
Proof. unfold arraySet. intros Hset. case_decide; by simplify_eq. Qed.

Lemma arraySet_length a i v new :
  arraySet a i v = Some new → length new = length a.
Proof. intros [_ ->]%arraySet_Some. apply length_insert. Qed.

Lemma arrayGet_arraySet_eq a i v new :
  arraySet a i v = Some new → arrayGet new i = Some v.
Proof.
  intros [Hi ->]%arraySet_Some. unfold arrayGet.
  rewrite decide_True by lia. apply list_lookup_insert_eq. lia.
Qed.

Lemma arrayGet_arraySet_ne a i j v new :
  arraySet a i v = Some new → j ≠ i → arrayGet new j = arrayGet a j.
Proof.
  intros [Hi ->]%arraySet_Some Hne. unfold arrayGet.
  case_decide; [|done]. apply list_lookup_insert_ne. lia.
Qed.

End ArrayFacts.

(** The steps of one run, for a fixed table, grid column and width. *)
Section Steps.
Variables (t : Table) (start col w : Z).
Let m := tableMap t.

Lemma widthStep_emits row s :
  widthStep t start col w row = Some (Some s) →
  ∃ pos node index,
    arrayGet (map m) (row * width m + col) = Some pos ∧
    cells t !! pos = Some node ∧
    spanIndex m (attrs node) col pos = Some index ∧
    stepPos s = start + pos ∧
    rewrites w (attrs node) index (stepAttrs s).
Proof.
  unfold widthStep. fold m. intros Hstep.
  case_decide; [done|].
  destruct (arrayGet (map m) (row * width m + col)) as [pos|] eqn:Hpos; [|done].
  simpl in Hstep.
  destruct (cells t !! pos) as [node|] eqn:Hnode; [|done]. simpl in Hstep.
  destruct (spanIndex m (attrs node) col pos) as [index|] eqn:Hindex; [|done].
  simpl in Hstep.
  destruct (holdsWidth (colwidth (attrs node)) index w) eqn:Hholds; [done|].
  destruct (match colwidth (attrs node) with
            | Some l => Some l
            | None => zeroes (colspan (attrs node))
            end) as [old|] eqn:Hold; [|done].
  simpl in Hstep.
  destruct (arraySet old index w) as [new|] eqn:Hnew; [|done].
  simpl in Hstep. injection Hstep as <-.
  exists pos, node, index. split_and!; try done.
  unfold rewrites, storedWidths. split; [done|].
  destruct (colwidth (attrs node)) as [l|].
  - simplify_eq. split; [done|]. by exists new.
  - unfold zeroes in Hold. case_decide; [|done]. simplify_eq.
    split; [done|]. by exists new.
Qed.

Lemma widthSteps_elem tr s :
  widthSteps t start col w = Some tr → s ∈ tr →
  ∃ row, 0 ≤ row < height m ∧ widthStep t start col w row = Some (Some s).
Proof.
  unfold widthSteps. fold m. intros Hsteps Hs.
  destruct (mapM _ _) as [steps|] eqn:HmapM; [|done].
  simpl in Hsteps. simplify_eq.
  apply list_elem_of_omap in Hs as (r & Hr & Hid). simpl in Hid. subst r.
  apply mapM_Some_1 in HmapM.
  apply list_elem_of_lookup in Hr as [i Hi].
  destruct (Forall2_lookup_r _ _ _ _ _ HmapM Hi) as (row & Hrow & Hstep).
  exists row. split; [|done].
  apply list_elem_of_lookup_2 in Hrow. unfold upto in Hrow.
  apply elem_of_seqZ in Hrow. lia.
Qed.

Lemma widthSteps_row tr row :
  widthSteps t start col w = Some tr → 0 ≤ row < height m →
  ∃ r, widthStep t start col w row = Some r ∧ ∀ s, r = Some s → s ∈ tr.
Proof.
  unfold widthSteps. fold m. intros Hsteps Hrow.
  destruct (mapM _ _) as [steps|] eqn:HmapM; [|done].
  simpl in Hsteps. simplify_eq.
  apply mapM_Some_1 in HmapM.
  assert (upto (height m) !! Z.to_nat row = Some row) as Hlook.
  { unfold upto. rewrite lookup_seqZ. lia. }
  destruct (Forall2_lookup_l _ _ _ _ _ HmapM Hlook) as (r & Hr & Hstep).
  exists r. split; [done|]. intros s ->.
  apply list_elem_of_omap. exists (Some s). split; [|done].
  by eapply list_elem_of_lookup_2.
Qed.

End Steps.

Section IndexOf.
Context {A : Type} `{EqDecision A}.

Lemma indexOfFrom_spec (x : A) (a : list A) (i : Z) :
  0 ≤ i →
  (indexOfFrom x a i = -1 ∧ x ∉ a) ∨
  (∃ n : nat, indexOfFrom x a i = i + Z.of_nat n ∧ a !! n = Some x ∧
              ∀ n' : nat, (n' < n)%nat → a !! n' ≠ Some x).
Proof.
  revert i. induction a as [|y a IH]; intros i Hi; simpl.
  - left. split; [done|]. apply not_elem_of_nil.
  - case_decide as Hy.
    + right. exists 0%nat. subst y. split_and!; [lia|done|intros; lia].
    + destruct (IH (i + 1) ltac:(lia)) as [[-> Hnot]|(n & -> & Hn & Hfirst)].
      * left. split; [done|]. rewrite not_elem_of_cons. naive_solver.
      * right. exists (S n). split_and!; [lia|done|].
        intros [|n'] Hlt; simpl; [naive_solver|]. apply Hfirst. lia.
Qed.

Lemma indexOf_found (a : list A) (x : A) :
  indexOf a x ≠ -1 →
  0 ≤ indexOf a x < Z.of_nat (length a) ∧
  arrayGet a (indexOf a x) = Some x ∧
  ∀ j, 0 ≤ j < indexOf a x → arrayGet a j ≠ Some x.
Proof.
  unfold indexOf. intros Hne.
  destruct (indexOfFrom_spec x a 0 ltac:(lia))
    as [[? _]|(n & Heq & Hn & Hfirst)]; [done|].
  rewrite Heq. split; [|split].
  - apply lookup_lt_Some in Hn. lia.
  - unfold arrayGet. case_decide; [|lia].
    by replace (Z.to_nat (0 + Z.of_nat n)) with n by lia.
  - intros j Hj. unfold arrayGet. case_decide; [|lia].
    apply Hfirst. lia.
Qed.

Lemma indexOf_elem (a : list A) (x : A) : x ∈ a → indexOf a x ≠ -1.
Proof.
  unfold indexOf. intros Hin.
  destruct (indexOfFrom_spec x a 0 ltac:(lia))
    as [[_ ?]|(n & -> & _)]; [done|lia].
Qed.

Lemma indexOf_first (a : list A) (x : A) (i : Z) :
  arrayGet a i = Some x →
  (∀ j, 0 ≤ j < i → arrayGet a j ≠ Some x) →
  indexOf a x = i.
Proof.
  intros Hi Hfirst.
  assert (0 ≤ i) as Hi0.
  { unfold arrayGet in Hi. by case_decide. }
  assert (x ∈ a) as Hin.
  { unfold arrayGet in Hi. case_decide; [|done].
    by eapply list_elem_of_lookup_2. }
  destruct (indexOf_found a x (indexOf_elem a x Hin)) as (Hrange & Hget & Hmin).
  destruct (Z.lt_trichotomy (indexOf a x) i) as [Hlt|[Heq|Hgt]]; [|done|].
  - exfalso. apply (Hfirst (indexOf a x)); [lia|done].
  - exfalso. apply (Hmin i); [lia|done].
Qed.

End IndexOf.

(** The node a transaction leaves at offset [p]. *)
Lemma foldl_setNodeMarkup_lookup (start p : Z) (a' : CellAttrs)
    (tr : list MarkupStep) (cs : gmap Z Node) (n : Node) :
  cs !! p = Some n →
  (∀ s, s ∈ tr → stepPos s - start = p → stepAttrs s = a') →
  foldl (setNodeMarkup start) cs tr !! p =
    Some (if decide (Exists (λ s, stepPos s - start = p) tr)
          then {| attrs := a'; nodeSize := nodeSize n |} else n).
Proof.
  revert cs n. induction tr as [|s tr IH]; intros cs n Hn Hsame.
  - case_decide as HE; [by apply Exists_nil in HE|done].
  - change (foldl (setNodeMarkup start) cs (s :: tr))
      with (foldl (setNodeMarkup start) (setNodeMarkup start cs s) tr).
    assert (∀ s', s' ∈ tr → stepPos s' - start = p → stepAttrs s' = a')
      as Hrest by (intros s' Hs'; apply Hsame; by right).
    destruct (decide (stepPos s - start = p)) as [Hs|Hs].
    + rewrite (IH _ {| attrs := a'; nodeSize := nodeSize n |}); [|..|done].
      * rewrite (decide_True (P := Exists _ (s :: tr))) by by left.
        by case_decide.
      * unfold setNodeMarkup. rewrite Hs, lookup_alter_eq, Hn. simpl.
        by rewrite (Hsame s) by (done || left).
    + rewrite (IH _ n); [|..|done].
      * f_equal.
        destruct (decide (Exists (λ s0, stepPos s0 - start = p) (s :: tr)))
          as [HE|HE], (decide (Exists (λ s0, stepPos s0 - start = p) tr))
          as [HE'|HE']; try done.
        -- by apply Exists_cons in HE as [?|?].
        -- destruct HE. by right.
      * unfold setNodeMarkup. by rewrite lookup_alter_ne.
Qed.

Lemma foldl_setNodeMarkup_None (start p : Z) (tr : list MarkupStep)
    (cs : gmap Z Node) :
  cs !! p = None → foldl (setNodeMarkup start) cs tr !! p = None.
Proof.
  revert cs. induction tr as [|s tr IH]; intros cs Hp; [done|].
  simpl. apply IH. unfold setNodeMarkup.
  destruct (decide (stepPos s - start = p)) as [->|Hne].
  - by rewrite lookup_alter_eq, Hp.
  - by rewrite lookup_alter_ne.
Qed.

Section Post.
Variables (t : Table) (start col w : Z).
Let m := tableMap t.

Lemma rewrites_functional a index a1 a2 :
  rewrites w a index a1 → rewrites w a index a2 → a1 = a2.
Proof. intros (_ & _ & new1 & H1 & ->) (_ & _ & new2 & H2 & ->). congruence. Qed.

(** Every row before [row] holding [pos] in column [col] leads back to a
    row that the loop does not skip. *)
Lemma inColumn_first_row pos :
  inColumn m col pos →
  ∃ row, 0 ≤ row < height m ∧
         arrayGet (map m) (row * width m + col) = Some pos ∧
         ¬ (row ≠ 0 ∧ arrayGet (map m) (row * width m + col) =
                        arrayGet (map m) (row * width m + col - width m)).
Proof.
  intros (row & Hrow & Hpos).
  remember (Z.to_nat row) as k eqn:Hk.
  revert row Hk Hrow Hpos. induction k as [|k IH]; intros row Hk Hrow Hpos.
  - exists row. split_and!; [lia|lia|done|]. intros [Hne _]. lia.
  - destruct (decide (row ≠ 0 ∧ arrayGet (map m) (row * width m + col) =
                        arrayGet (map m) (row * width m + col - width m)))
      as [[Hne Hsame]|Hfirst].
    + apply (IH (row - 1)); [lia|lia|].
      replace ((row - 1) * width m + col)
        with (row * width m + col - width m) by lia.
      by rewrite <- Hsame.
    + exists row. split_and!; [lia|lia|done|done].
Qed.

(** What a run that returns leaves at every cell of the table. *)
Lemma widthSteps_post tr pos node :
  widthSteps t start col w = Some tr →
  cells t !! pos = Some node →
  let cs' := foldl (setNodeMarkup start) (cells t) tr in
  (inColumn m col pos ∧
   ∃ index a', spanIndex m (attrs node) col pos = Some index ∧
               rewrites w (attrs node) index a' ∧
               (∃ s, s ∈ tr ∧ stepPos s = start + pos) ∧
               cs' !! pos = Some {| attrs := a'; nodeSize := nodeSize node |}) ∨
  ((∀ s, s ∈ tr → stepPos s ≠ start + pos) ∧ cs' !! pos = Some node).
Proof.
  intros Hsteps Hnode cs'. subst cs'.
  destruct (decide (Exists (λ s, stepPos s - start = pos) tr)) as [HE|HE].
  - left. apply Exists_exists in HE as (s & Hs & Hpos).
    destruct (widthSteps_elem _ _ _ _ _ _ Hsteps Hs) as (row & Hrow & Hstep).
    destruct (widthStep_emits _ _ _ _ _ _ Hstep)
      as (pos' & node' & index & Hget & Hnode' & Hindex & Hspos & Hrw).
    assert (pos' = pos) as -> by lia.
    rewrite Hnode in Hnode'. injection Hnode' as <-.
    split; [by exists row|].
    exists index, (stepAttrs s). split_and!; try done.
    + exists s. split; [done|lia].
    + rewrite (foldl_setNodeMarkup_lookup start pos (stepAttrs s) tr _ node Hnode).
      * by rewrite decide_True by (apply Exists_exists; eauto).
      * intros s2 Hs2 Hpos2.
        destruct (widthSteps_elem _ _ _ _ _ _ Hsteps Hs2) as (row2 & _ & Hstep2).
        destruct (widthStep_emits _ _ _ _ _ _ Hstep2)
          as (pos2 & node2 & index2 & _ & Hnode2 & Hindex2 & Hspos2 & Hrw2).
        assert (pos2 = pos) as -> by lia.
        rewrite Hnode in Hnode2. injection Hnode2 as <-.
        rewrite Hindex in Hindex2. injection Hindex2 as <-.
        by eapply rewrites_functional.
  - right. split.
    + intros s Hs Hpos. apply HE, Exists_exists. exists s. split; [done|lia].
    + rewrite (foldl_setNodeMarkup_lookup start pos (attrs node) tr _ node Hnode).
      * by rewrite decide_False.
      * intros s Hs Hpos. exfalso. apply HE, Exists_exists. eauto.
Qed.

(** A cell of column [col] ends up holding [w] at its span index, and a
    cell holding it from the start gets no step. *)
Lemma widthSteps_column tr pos :
  widthSteps t start col w = Some tr →
  inColumn m col pos →
  ∃ node index,
    cells t !! pos = Some node ∧
    spanIndex m (attrs node) col pos = Some index ∧
    (holdsWidth (colwidth (attrs node)) index w = true ∨
     ∃ s, s ∈ tr ∧ stepPos s = start + pos).
Proof.
  intros Hsteps Hin.
  destruct (inColumn_first_row pos Hin) as (row & Hrow & Hget & Hfirst).
  destruct (widthSteps_row _ _ _ _ _ row Hsteps Hrow) as (r & Hstep & Hr).
  destruct r as [s|].
  - destruct (widthStep_emits _ _ _ _ _ _ Hstep)
      as (pos' & node & index & Hget' & Hnode & Hindex & Hspos & Hrw).
    fold m in Hget'. simplify_eq.
    exists node, index. split_and!; try done. right. exists s. eauto.
  - unfold widthStep in Hstep. fold m in Hstep.
    rewrite decide_False in Hstep by done.
    rewrite Hget in Hstep. simpl in Hstep.
    destruct (cells t !! pos) as [node|] eqn:Hnode; [|done]. simpl in Hstep.
    destruct (spanIndex m (attrs node) col pos) as [index|] eqn:Hindex; [|done].
    simpl in Hstep.
    exists node, index. split_and!; try done.
    destruct (holdsWidth _ _ _); [by left|].
    destruct (match colwidth (attrs node) with
              | Some l => Some l
              | None => zeroes (colspan (attrs node))
              end) as [old|]; [|done].
    simpl in Hstep. by destruct (arraySet old index w).
Qed.

End Post.

Lemma spanIndex_colspan (m : TableMap) (a a' : CellAttrs) (col pos : Z) :
  colspan a' = colspan a → spanIndex m a' col pos = spanIndex m a col pos.
Proof. unfold spanIndex. by intros ->. Qed.

Section Rows.
Variables (t : Table) (start col w : Z).
Let m := tableMap t.

(** The three ways through the loop body. *)
Lemma widthStep_inv row r :
  widthStep t start col w row = Some r →
  let here := arrayGet (map m) (row * width m + col) in
  let above := arrayGet (map m) (row * width m + col - width m) in
  (row ≠ 0 ∧ here = above ∧ r = None) ∨
  (¬ (row ≠ 0 ∧ here = above) ∧
   ∃ pos node index,
     here = Some pos ∧ cells t !! pos = Some node ∧
     spanIndex m (attrs node) col pos = Some index ∧
     ((holdsWidth (colwidth (attrs node)) index w = true ∧ r = None) ∨
      (∃ s, r = Some s ∧ stepPos s = start + pos ∧
            rewrites w (attrs node) index (stepAttrs s)))).
Proof.
  intros Hstep here above. subst here above.
  destruct r as [s|].
  - right.
    destruct (widthStep_emits _ _ _ _ _ _ Hstep)
      as (pos & node & index & Hget & Hnode & Hindex & Hspos & Hrw).
    fold m in Hget, Hindex. split.
    + unfold widthStep in Hstep. fold m in Hstep. by case_decide.
    + exists pos, node, index. split_and!; try done. right. by exists s.
  - unfold widthStep in Hstep. fold m in Hstep.
    case_decide as Hskip; [left; by destruct Hskip|]. right. split; [done|].
    destruct (arrayGet (map m) (row * width m + col)) as [pos|]; [|done].
    simpl in Hstep.
    destruct (cells t !! pos) as [node|] eqn:Hnode; [|done]. simpl in Hstep.
    destruct (spanIndex m (attrs node) col pos) as [index|] eqn:Hindex; [|done].
    simpl in Hstep.
    exists pos, node, index. split_and!; try done. left. split; [|done].
    destruct (holdsWidth _ _ _); [done|].
    destruct (match colwidth (attrs node) with
              | Some l => Some l
              | None => zeroes (colspan (attrs node))
              end) as [old|]; [|done].
    simpl in Hstep. by destruct (arraySet old index w).
Qed.

(** A run whose rows all [continue] has no step. *)
Lemma widthSteps_nil :
  (∀ row, 0 ≤ row < height m → widthStep t start col w row = Some None) →
  widthSteps t start col w = Some [].
Proof.
  intros Hrows. unfold widthSteps. fold m.
  assert (∀ row, row ∈ upto (height m) →
                 widthStep t start col w row = Some None) as Hall.
  { intros row Hrow. apply Hrows. unfold upto in Hrow.
    apply elem_of_seqZ in Hrow. lia. }
  clear Hrows. induction (upto (height m)) as [|row rows IH]; [done|].
  simpl. rewrite Hall by left. simpl.
  assert (∀ row, row ∈ rows → widthStep t start col w row = Some None)
    as Hrest by (intros; apply Hall; by right).
  specialize (IH Hrest).
  destruct (mapM (widthStep t start col w) rows) as [steps|]; [|done].
  simpl in *. done.
Qed.

End Rows.

(** A sound table lets the loop run to its end on every grid column. *)
Lemma widthSteps_total (t : Table) (start col w : Z) :
  wellFormed t = true →
  0 ≤ col < width (tableMap t) →
  is_Some (widthSteps t start col w).
Proof.
  set (m := tableMap t). intros Hwf Hcol.
  unfold wellFormed in Hwf. fold m in Hwf.
  apply andb_prop in Hwf as [Hwf Hinv]. apply andb_prop in Hwf as [Hdim Hslots].
  apply bool_decide_eq_true in Hdim as (Hw & Hh & Hlen).
  apply bool_decide_eq_true in Hinv.
  rewrite forallb_forall in Hslots.
  unfold widthSteps. fold m.
  destruct (mapM_is_Some_2 (widthStep t start col w) (upto (height m)))
    as [steps ->]; [|done].
  apply Forall_forall. intros row Hrow. simpl.
  unfold upto in Hrow. apply elem_of_seqZ in Hrow.
  assert (0 ≤ row * width m + col < width m * height m) as Hi by nia.
  specialize (Hslots (row * width m + col)).
  rewrite <- list_elem_of_In in Hslots. unfold upto in Hslots.
  rewrite elem_of_seqZ in Hslots. specialize (Hslots ltac:(lia)).
  unfold slotSound in Hslots. fold m in Hslots.
  unfold widthStep. fold m.
  case_decide; [done|].
  destruct (arrayGet (map m) (row * width m + col)) as [pos|]; [|done].
  simpl.
  destruct (cells t !! pos) as [node|] eqn:Hnode; [|done]. simpl.
  destruct (colCount m pos) as [c|] eqn:Hc; [|done].
  apply bool_decide_eq_true in Hslots as [Hspan Hfit].
  replace ((row * width m + col) `mod` width m) with col in Hspan; last first.
  { rewrite Z.add_comm, Z.mod_add, Z.mod_small; lia. }
  specialize (Hinv pos node Hnode). simpl in Hinv.
  unfold widthsMatchSpan in Hinv.
  assert (∃ index, spanIndex m (attrs node) col pos = Some index ∧
                   0 ≤ index < colspan (attrs node)) as (index & -> & Hindex).
  { unfold spanIndex. case_decide.
    - exists 0. split; [done|lia].
    - rewrite Hc. simpl. exists (col - c). split; [done|lia]. }
  simpl. destruct (holdsWidth _ _ _); [done|].
  destruct (colwidth (attrs node)) as [l|]; simpl.
  - unfold arraySet. by rewrite decide_True by lia.
  - unfold zeroes. rewrite decide_True by lia. simpl.
    unfold arraySet. rewrite decide_True; [done|].
    rewrite length_replicate. lia.
Qed.

(** The target column of a cell of a sound table lies in the grid. *)
Lemma spanEndColumn_in_grid (st : EditorState) (cell : Z) :
  wellFormed (table st) = true →
  is_Some (nodeAfter st cell) →
  cell - tableStart st ∈ map (tableMap (table st)) →
  ∃ k, spanEndColumn st cell = Some (k + 1) ∧
       0 ≤ k < width (tableMap (table st)).
Proof.
  set (m := tableMap (table st)). intros Hwf [node Hnode] Hin.
  unfold wellFormed in Hwf. fold m in Hwf.
  apply andb_prop in Hwf as [Hwf _]. apply andb_prop in Hwf as [Hdim Hslots].
  apply bool_decide_eq_true in Hdim as (Hw & Hh & Hlen).
  rewrite forallb_forall in Hslots.
  destruct (indexOf_found (map m) _ (indexOf_elem _ _ Hin))
    as (Hrange & Hget & _).
  specialize (Hslots (indexOf (map m) (cell - tableStart st))).
  rewrite <- list_elem_of_In in Hslots. unfold upto in Hslots.
  rewrite elem_of_seqZ in Hslots. specialize (Hslots ltac:(lia)).
  unfold slotSound in Hslots. fold m in Hslots. rewrite Hget in Hslots.
  unfold nodeAfter in Hnode. rewrite Hnode in Hslots.
  unfold spanEndColumn, nodeAfter. fold m. rewrite Hnode.
  destruct (colCount m (cell - tableStart st)) as [c|] eqn:Hc; [|done].
  apply bool_decide_eq_true in Hslots as [Hspan Hfit].
  assert (0 ≤ c).
  { unfold colCount in Hc. case_decide; [done|]. simplify_eq.
    apply Z.mod_pos_bound. lia. }
  exists (c + colspan (attrs node) - 1). simpl. split; [f_equal; lia|lia].
Qed.

Lemma updateColumnWidth_total (view : EditorView) (cell w : Z) :
  wellFormed (table (state view)) = true →
  is_Some (nodeAfter (state view) cell) →
  cell - tableStart (state view) ∈ map (tableMap (table (state view))) →
  is_Some (updateColumnWidth view cell w).
Proof.
  intros Hwf Hnode Hin.
  destruct (spanEndColumn_in_grid _ _ Hwf Hnode Hin) as (k & Hk & Hrange).
  unfold updateColumnWidth. rewrite Hk. simpl.
  replace (k + 1 - 1) with k by lia.
  destruct (widthSteps_total (table (state view)) (tableStart (state view))
              k w Hwf Hrange) as [tr ->].
  simpl. eauto.
Qed.

Lemma holdsWidth_stored (a : CellAttrs) (index w : Z) :
  holdsWidth (colwidth a) index w = true →
  arrayGet (storedWidths a) index = Some w.
Proof.
  unfold holdsWidth, storedWidths. destruct (colwidth a); [|done].
  by intros ?%bool_decide_eq_true.
Qed.

Lemma rewrites_holds (a a' : CellAttrs) (index w : Z) :
  rewrites w a index a' → holdsWidth (colwidth a') index w = true.
Proof.
  intros (_ & _ & new & Hset & ->). simpl.
  apply bool_decide_eq_true. by eapply arrayGet_arraySet_eq.
Qed.

(** A run of [updateColumnWidth], taken apart. *)
Lemma updateColumnWidth_inv (view : EditorView) (cell w : Z)
    (r : option (list MarkupStep)) :
  updateColumnWidth view cell w = Some r →
  let st := state view in
  let t' := tableAfter (tableStart st) (table st) r in
  ∃ e tr,
    spanEndColumn st cell = Some e ∧
    widthSteps (table st) (tableStart st) (e - 1) w = Some tr ∧
    r = (if decide (tr = []) then None else Some tr) ∧
    cells t' = foldl (setNodeMarkup (tableStart st)) (cells (table st)) tr ∧
    tableMap t' = tableMap (table st).
Proof.
  intros Hrun st t'. subst st t'. unfold updateColumnWidth in Hrun.
  destruct (spanEndColumn (state view) cell) as [e|]; [|done]. simpl in Hrun.
  destruct (widthSteps _ _ _ _) as [tr|] eqn:Hsteps; [|done]. simpl in Hrun.
  injection Hrun as <-. exists e, tr. split_and!; try done;
    by case_decide; subst.
Qed.

(** C1: [updateColumnWidth] for target grid column [k] and width [w]
    leaves every cell its size, spans and other attributes; leaves the
    cells outside column [k] as they were; and in a cell that intersects
    column [k] sets the entry of the width sequence at the cell's span
    index (0 for [colspan = 1], else [k] minus the cell's first column)
    to [w] and changes no other entry. For a cell over columns
    [k-1 .. k+1] that index is 1. On a sound table the run goes through
    for every cell of the grid. *)
Theorem updateColumnWidth_changes_one_entry (view : EditorView) (cell w : Z) :
  let st := state view in
  (wellFormed (table st) = true →
   is_Some (nodeAfter st cell) →
   cell - tableStart st ∈ map (tableMap (table st)) →
   is_Some (updateColumnWidth view cell w)) ∧
  ∀ k r,
    spanEndColumn st cell = Some (k + 1) →
    updateColumnWidth view cell w = Some r →
    onlyColumnEntryChanged (table st) k w (tableAfter (tableStart st) (table st) r).
Proof.
  intros st. subst st. split; [apply updateColumnWidth_total|].
  intros k r Hend Hrun. unfold onlyColumnEntryChanged.
  destruct (updateColumnWidth_inv view cell w r Hrun)
    as (e & tr & He & Hsteps & _ & Hcells & Hmap).
  rewrite Hend in He. injection He as <-.
  replace (k + 1 - 1) with k in Hsteps by lia.
  split; [done|]. intros pos node Hnode. rewrite Hcells.
  destruct (widthSteps_post _ _ _ _ tr pos node Hsteps Hnode)
    as [(Hin & index & a' & Hindex & Hrw & _ & Hpost)|[Hnone Hpost]].
  - exists {| attrs := a'; nodeSize := nodeSize node |}.
    destruct Hrw as (_ & _ & new & Hset & ->). simpl.
    split_and!; try done. intros _. exists index.
    unfold storedWidths at 1 2. simpl. split_and!; try done.
    + by eapply arrayGet_arraySet_eq.
    + intros j Hj. by eapply arrayGet_arraySet_ne.
    + intros Hc H3. unfold spanIndex in Hindex.
      rewrite decide_False in Hindex by lia. rewrite Hc in Hindex.
      simpl in Hindex. injection Hindex as <-. lia.
  - exists node. split_and!; try done. intros Hin.
    destruct (widthSteps_column _ _ _ _ tr pos Hsteps Hin)
      as (node0 & index & Hnode0 & Hindex & Hcase).
    rewrite Hnode in Hnode0. injection Hnode0 as <-.
    destruct Hcase as [Hholds|(s & Hs & Hspos)]; [|by destruct (Hnone s)].
    exists index. split_and!; try done.
    + by apply holdsWidth_stored.
    + intros Hc H3. unfold spanIndex in Hindex.
      rewrite decide_False in Hindex by lia. rewrite Hc in Hindex.
      simpl in Hindex. injection Hindex as <-. lia.
Qed.

(** Resizing the middle column of [spanTable] to 90 from the cell at
    position 17: the three-column cell goes from [40, 50, 60] to
    [40, 90, 60], the two-column cell below it to [0, 90], and the cell of
    the third column is not touched. *)
Lemma updateColumnWidth_changes_one_entry_witness :
  let r := Some [ {| stepPos := 11;
                     stepAttrs := attrs (sampleCell 3 1 (Some [40; 90; 60])) |};
                  {| stepPos := 17;
                     stepAttrs := attrs (sampleCell 2 1 (Some [0; 90])) |} ] in
  updateColumnWidth spanView 17 90 = Some r ∧
  is_Some (updateColumnWidth spanView 17 90) ∧
  onlyColumnEntryChanged spanTable 1 90 (tableAfter 10 spanTable r).
Proof.
  intros r.
  destruct (updateColumnWidth_changes_one_entry spanView 17 90) as [Htotal Hframe].
  split_and!.
  - reflexivity.
  - apply Htotal; [reflexivity|by eexists|].
    apply list_elem_of_In. simpl. tauto.
  - apply (Hframe 1 r); reflexivity.
Defined.

(** C4: a cell that already holds [w] at its span index gets no step;
    when every cell of the column does, nothing is dispatched; and after
    a run, whatever it dispatched, the same call on a view of the
    resulting document dispatches nothing. *)
Theorem updateColumnWidth_second_run_is_noop
    (view : EditorView) (cell w k : Z) (r : option (list MarkupStep)) :
  let st := state view in
  let m := tableMap (table st) in
  spanEndColumn st cell = Some (k + 1) →
  updateColumnWidth view cell w = Some r →
  (∀ pos node index tr s,
     cells (table st) !! pos = Some node →
     spanIndex m (attrs node) k pos = Some index →
     holdsWidth (colwidth (attrs node)) index w = true →
     r = Some tr → s ∈ tr → stepPos s ≠ tableStart st + pos) ∧
  ((∀ pos node index,
      inColumn m k pos →
      cells (table st) !! pos = Some node →
      spanIndex m (attrs node) k pos = Some index →
      holdsWidth (colwidth (attrs node)) index w = true) →
   r = None) ∧
  (∀ view',
     table (state view') = tableAfter (tableStart st) (table st) r →
     tableStart (state view') = tableStart st →
     updateColumnWidth view' cell w = Some None).
Proof.
  intros st m Hend Hrun. subst st m.
  destruct (updateColumnWidth_inv view cell w r Hrun)
    as (e & tr & He & Hsteps & Hr & Hcells & Hmap).
  rewrite Hend in He. injection He as <-.
  replace (k + 1 - 1) with k in Hsteps by lia.
  set (t := table (state view)) in *. set (start := tableStart (state view)) in *.
  assert (∀ s, s ∈ tr →
            ∃ pos node index,
              inColumn (tableMap t) k pos ∧ cells t !! pos = Some node ∧
              spanIndex (tableMap t) (attrs node) k pos = Some index ∧
              stepPos s = start + pos ∧
              holdsWidth (colwidth (attrs node)) index w = false) as Hemitted.
  { intros s Hs.
    destruct (widthSteps_elem _ _ _ _ _ _ Hsteps Hs) as (row & Hrow & Hstep).
    destruct (widthStep_emits _ _ _ _ _ _ Hstep)
      as (pos & node & index & Hget & Hnode & Hindex & Hspos & Hrw & _).
    exists pos, node, index. split_and!; try done. by exists row. }
  split_and!.
  - intros pos node index tr' s Hnode Hindex Hholds -> Hs Hspos.
    assert (tr' = tr) as -> by (case_decide; congruence).
    destruct (Hemitted s Hs) as (pos' & node' & index' & _ & Hnode' & Hindex' & Hspos' & Hnot).
    assert (pos' = pos) as -> by lia.
    rewrite Hnode in Hnode'. injection Hnode' as <-.
    rewrite Hindex in Hindex'. injection Hindex' as <-. congruence.
  - intros Hall. rewrite Hr. case_decide as Htr; [done|].
    destruct tr as [|s tr']; [done|].
    destruct (Hemitted s ltac:(left)) as (pos & node & index & Hin & Hnode & Hindex & _ & Hnot).
    specialize (Hall pos node index Hin Hnode Hindex). congruence.
  - (* the second run *)
    intros view' Htable Hstart.
    assert (spanEndColumn (state view') cell = Some (k + 1)) as Hend'.
    { unfold spanEndColumn, nodeAfter in *.
      rewrite Htable, Hstart, Hmap, Hcells. fold t start in Hend |- *.
      destruct (colCount (tableMap t) (cell - start)) as [c|]; [|done].
      simpl in *.
      destruct (cells t !! (cell - start)) as [node|] eqn:Hnode; [|done].
      destruct (widthSteps_post _ _ _ _ tr _ node Hsteps Hnode)
        as [(_ & index & a' & _ & Hrw & _ & ->)|[_ ->]]; [|done].
      destruct Hrw as (_ & _ & new & _ & ->). done. }
    unfold updateColumnWidth. rewrite Hend'. simpl.
    replace (k + 1 - 1) with k by lia.
    rewrite Hstart, Htable. fold t start.
    set (t' := tableAfter start t r) in *.
    rewrite (widthSteps_nil t' start k w); [done|].
    intros row Hrow. rewrite Hmap in Hrow.
    destruct (widthSteps_row _ _ _ _ tr row Hsteps Hrow) as (r0 & Hstep & Hr0).
    destruct (widthStep_inv _ _ _ _ _ _ Hstep)
      as [(Hne & Hsame & _)|(Hfirst & pos & node & index & Hget & Hnode & Hindex & Hcase)].
    + unfold widthStep. rewrite Hmap. by rewrite decide_True.
    + unfold widthStep. rewrite Hmap. rewrite decide_False by done.
      rewrite Hget. simpl. rewrite Hcells.
      destruct (widthSteps_post _ _ _ _ tr pos node Hsteps Hnode)
        as [(_ & index' & a' & Hindex' & Hrw & _ & ->)|[Hnone ->]]; simpl.
      * rewrite Hindex in Hindex'. injection Hindex' as <-.
        assert (colspan a' = colspan (attrs node)) as Hspan.
        { by destruct Hrw as (_ & _ & new & _ & ->). }
        rewrite (spanIndex_colspan _ _ _ _ _ Hspan), Hindex. simpl.
        by rewrite (rewrites_holds _ _ _ _ Hrw).
      * rewrite Hindex. simpl.
        destruct Hcase as [[-> _]|(s & -> & Hspos & _)]; [done|].
        by destruct (Hnone s (Hr0 s eq_refl)).
Qed.

(** Resizing the second column of the sample table to 150 from the cell
    at position 11 dispatches two steps; the same call on a view of the
    resulting table dispatches none. *)
Lemma updateColumnWidth_second_run_is_noop_witness :
  let tr := [ {| stepPos := 11;
                 stepAttrs := attrs (sampleCell 2 2 (Some [0; 150])) |};
              {| stepPos := 31;
                 stepAttrs := attrs (sampleCell 1 1 (Some [150])) |} ] in
  let view' := {| state := {| table := applySteps 10 sampleTable tr;
                              tableStart := 10;
                              pluginState := Some idle |};
                  posAtCoords := λ _ _, None;
                  cellAround := λ _, None |} in
  updateColumnWidth (sampleView None) 11 150 = Some (Some tr) ∧
  updateColumnWidth view' 11 150 = Some None.
Proof.
  intros tr view'. split; [reflexivity|].
  exact (proj2 (proj2 (updateColumnWidth_second_run_is_noop (sampleView None)
                         11 150 1 (Some tr) eq_refl eq_refl))
               view' eq_refl eq_refl).
Defined.

(** Redistribution and the stored-width invariant: every step carries a width sequence as
    long as the cell's [colspan], and a table whose cells all keep the
    stored-width invariant keeps it through the run. *)
Lemma updateColumnWidth_keeps_widths_match_span
    (view : EditorView) (cell w : Z) (r : option (list MarkupStep)) :
  let inv (cs : gmap Z Node) := map_Forall (λ _ n, widthsMatchSpan (attrs n)) cs in
  inv (cells (table (state view))) →
  updateColumnWidth view cell w = Some r →
  (∀ tr s, r = Some tr → s ∈ tr →
     ∃ new, colwidth (stepAttrs s) = Some new ∧
            Z.of_nat (length new) = colspan (stepAttrs s)) ∧
  inv (cells (tableAfter (tableStart (state view)) (table (state view)) r)).
Proof.
  intros inv Hinv Hrun. subst inv.
  destruct (updateColumnWidth_inv view cell w r Hrun)
    as (e & tr & He & Hsteps & Hr & Hcells & Hmap).
  assert (∀ a index a', widthsMatchSpan a → rewrites w a index a' →
            ∃ new, colwidth a' = Some new ∧ Z.of_nat (length new) = colspan a')
    as Hlen.
  { intros a index a' Ha (_ & Hnone & new & Hset & ->). exists new. simpl.
    split; [done|]. rewrite (arraySet_length _ _ _ _ Hset).
    unfold widthsMatchSpan in Ha. unfold storedWidths.
    destruct (colwidth a); [done|]. rewrite length_replicate.
    specialize (Hnone eq_refl). lia. }
  split.
  - intros tr' s -> Hs. assert (tr' = tr) as -> by (case_decide; congruence).
    destruct (widthSteps_elem _ _ _ _ _ _ Hsteps Hs) as (row & Hrow & Hstep).
    destruct (widthStep_emits _ _ _ _ _ _ Hstep)
      as (pos & node & index & Hget & Hnode & Hindex & Hspos & Hrw).
    eapply Hlen; [|done]. by apply (Hinv pos node).
  - rewrite Hcells. intros pos node' Hnode'.
    destruct (cells (table (state view)) !! pos) as [node|] eqn:Hnode; last first.
    { by rewrite (foldl_setNodeMarkup_None _ _ _ _ Hnode) in Hnode'. }
    specialize (Hinv pos node Hnode). simpl in Hinv.
    destruct (widthSteps_post _ _ _ _ tr pos node Hsteps Hnode)
      as [(_ & index & a' & _ & Hrw & _ & Hpost)|[_ Hpost]];
      rewrite Hpost in Hnode'; injection Hnode' as <-; [|done].
    simpl. destruct (Hlen _ _ _ Hinv Hrw) as (new & Hnew & Hlength).
    unfold widthsMatchSpan. by rewrite Hnew.
Qed.

(** ** Decoration placement *)

(** The tests of the two loops say what the specification says. *)
Lemma colHandleAt_expected (m : TableMap) (boundary row : Z) :
  colHandleAt m boundary row ↔ columnMarkerExpected m boundary row.
Proof.
  unfold colHandleAt, columnMarkerExpected, slot.
  rewrite bool_decide_spec.
  replace (boundary + row * width m - 1 + 1) with (row * width m + boundary) by lia.
  replace (boundary + row * width m - 1 - width m)
    with ((row - 1) * width m + (boundary - 1)) by lia.
  by replace (boundary + row * width m - 1)
    with (row * width m + (boundary - 1)) by lia.
Qed.

Lemma rowHandleAt_expected (m : TableMap) (boundary col : Z) :
  rowHandleAt m boundary col ↔ rowMarkerExpected m boundary col.
Proof.
  unfold rowHandleAt, rowMarkerExpected, slot.
  rewrite bool_decide_spec.
  replace ((boundary - 1) * width m + col + width m)
    with (boundary * width m + col) by lia.
  by replace ((boundary - 1) * width m + col - 1)
    with ((boundary - 1) * width m + (col - 1)) by lia.
Qed.

(** A filter that lets nothing through, and one that lets through a
    single element of a duplicate-free list. *)
Lemma filter_none {A} (P : A → Prop) `{∀ x, Decision (P x)} (l : list A) :
  (∀ x, x ∈ l → ¬ P x) → filter P l = [].
Proof.
  induction l as [|x l IH]; intros HP; [done|].
  rewrite filter_cons_False by (apply HP; left).
  apply IH. intros y Hy. apply HP. by right.
Qed.

Lemma filter_only {A} (P : A → Prop) `{∀ x, Decision (P x)}
    (l : list A) (r : A) :
  NoDup l → r ∈ l → (∀ x, x ∈ l → (P x ↔ x = r)) → filter P l = [r].
Proof.
  induction l as [|x l IH]; intros Hnd Hin HP.
  - by apply elem_of_nil in Hin.
  - apply NoDup_cons in Hnd as [Hx Hnd].
    destruct (decide (P x)) as [HPx|HPx].
    + rewrite filter_cons_True by done.
      apply HP in HPx as ->; [|left]. f_equal.
      apply filter_none. intros y Hy HPy.
      apply HP in HPy; [|by right]. by subst y.
    + rewrite filter_cons_False by done.
      apply IH; [done| |].
      * apply elem_of_cons in Hin as [->|?]; [|done].
        exfalso. apply HPx, HP; [left|done].
      * intros y Hy. apply HP. by right.
Qed.

Section TwoByTwo.
Variables (m : TableMap) (p r c : Z).
Hypothesis Hocc : occupiesTwoByTwo m p r c.

Lemma twoByTwo_first_slot :
  indexOf (map m) p = r * width m + c.
Proof.
  destruct Hocc as (Hr & Hr2 & Hc & Hc2 & Hslots).
  apply indexOf_first.
  - apply (Hslots r c); lia.
  - intros j Hj Hget.
    assert (0 < width m) as Hw by lia.
    pose proof (Z.div_mod j (width m) ltac:(lia)) as Hdm.
    pose proof (Z.mod_pos_bound j (width m) Hw) as Hmod.
    assert (0 ≤ j `div` width m) as Hdiv0 by (apply Z.div_pos; lia).
    assert (j `div` width m ≤ r) as Hdivr by nia.
    assert (slot m (j `div` width m) (j `mod` width m) = Some p) as Hslot.
    { unfold slot. rewrite <- Hget. f_equal. lia. }
    apply Hslots in Hslot; [|lia|lia]. nia.
Qed.

Lemma twoByTwo_colCount : colCount m p = Some c.
Proof.
  destruct Hocc as (Hr & Hr2 & Hc & Hc2 & Hslots).
  unfold colCount. rewrite twoByTwo_first_slot.
  rewrite decide_False by nia. f_equal.
  rewrite Z.add_comm, Z.mod_add, Z.mod_small; lia.
Qed.

Lemma twoByTwo_rowCount : rowCount m p = Some r.
Proof.
  destruct Hocc as (Hr & Hr2 & Hc & Hc2 & Hslots).
  unfold rowCount. rewrite twoByTwo_first_slot.
  rewrite decide_False by nia. f_equal.
  rewrite Z.add_comm, Z.div_add, Z.div_small; lia.
Qed.

(** The column loop at the cell's right edge stops at the cell once: in
    its first row. *)
Lemma twoByTwo_colHandleRows :
  filter (λ row, slot m row (c + 1) = Some p) (colHandleRows m (c + 2)) = [r].
Proof.
  destruct Hocc as (Hr & Hr2 & Hc & Hc2 & Hslots).
  unfold colHandleRows. rewrite list_filter_filter.
  apply filter_only.
  - apply NoDup_seqZ.
  - unfold upto. apply elem_of_seqZ. lia.
  - intros row Hrow. unfold upto in Hrow. apply elem_of_seqZ in Hrow.
    rewrite colHandleAt_expected. unfold columnMarkerExpected.
    replace (c + 2 - 1) with (c + 1) by lia.
    rewrite (Hslots row (c + 1)) by lia.
    split.
    + intros [Hin [_ [?|Habove]]]; [lia|].
      destruct (decide (row = r)) as [|Hne]; [done|]. exfalso.
      apply Habove.
      transitivity (Some p); [apply Hslots|symmetry; apply Hslots]; lia.
    + intros ->. split; [lia|]. split.
      * destruct (decide (c + 2 = width m)) as [|Hne]; [by left|right].
        intros Heq.
        assert (slot m r (c + 2) = Some p) as Hright.
        { rewrite <- Heq. apply Hslots; lia. }
        apply Hslots in Hright; lia.
      * destruct (decide (r = 0)) as [|Hne]; [by left|right].
        intros Heq.
        assert (slot m (r - 1) (c + 1) = Some p) as Habove.
        { rewrite <- Heq. apply Hslots; lia. }
        apply Hslots in Habove; lia.
Qed.

(** The row loop at the cell's bottom edge stops at the cell once: in its
    first column. *)
Lemma twoByTwo_rowHandleCols :
  filter (λ col, slot m (r + 1) col = Some p) (rowHandleCols m (r + 2)) = [c].
Proof.
  destruct Hocc as (Hr & Hr2 & Hc & Hc2 & Hslots).
  unfold rowHandleCols. rewrite list_filter_filter.
  apply filter_only.
  - apply NoDup_seqZ.
  - unfold upto. apply elem_of_seqZ. lia.
  - intros col Hcol. unfold upto in Hcol. apply elem_of_seqZ in Hcol.
    rewrite rowHandleAt_expected. unfold rowMarkerExpected.
    replace (r + 2 - 1) with (r + 1) by lia.
    rewrite (Hslots (r + 1) col) by lia.
    split.
    + intros [Hin [_ [?|Hleft]]]; [lia|].
      destruct (decide (col = c)) as [|Hne]; [done|]. exfalso.
      apply Hleft.
      transitivity (Some p); [apply Hslots|symmetry; apply Hslots]; lia.
    + intros ->. split; [lia|]. split.
      * destruct (decide (r + 2 = height m)) as [|Hne]; [by left|right].
        intros Heq.
        assert (slot m (r + 2) c = Some p) as Hbelow.
        { rewrite <- Heq. apply Hslots; lia. }
        apply Hslots in Hbelow; lia.
      * destruct (decide (c = 0)) as [|Hne]; [by left|right].
        intros Heq.
        assert (slot m (r + 1) (c - 1) = Some p) as Hleft.
        { rewrite <- Heq. apply Hslots; lia. }
        apply Hslots in Hleft; lia.
Qed.

End TwoByTwo.

Lemma widgetAt_Some (t : Table) (start : Z) (cls : string) (index : Z)
    (d : Decoration) :
  widgetAt t start cls index = Some d ↔
  ∃ cellPos, arrayGet (map (tableMap t)) index = Some cellPos ∧
             markerOf t start cls cellPos d.
Proof.
  unfold widgetAt, markerOf. split.
  - intros Hw.
    destruct (arrayGet _ index) as [cellPos|]; [|done]. simpl in Hw.
    destruct (cells t !! cellPos) as [node|] eqn:Hnode; [|done].
    simpl in Hw. injection Hw as <-. exists cellPos. split; [done|].
    by exists node.
  - intros (cellPos & -> & node & Hnode & ->). simpl. by rewrite Hnode.
Qed.

(** C5: on the column axis, for the boundary just after the active
    cell's span, the decorations are, row by row from the top, one marker
    for every row where the slot to the right is another cell (or the
    boundary is the grid's right edge) and the slot above is another cell
    (or the row is the first), placed in the cell left of the boundary,
    and nothing else; the row axis is the same with rows and columns
    swapped. So for a cell of two columns by two rows the column loop at
    its right edge and the row loop at its bottom edge each stop at that
    cell exactly once. *)
Theorem handleDecorations_one_marker_per_segment (st : EditorState) (cell : Z) :
  let t := table st in
  let m := tableMap t in
  let start := tableStart st in
  (∀ boundary decos,
     spanEndColumn st cell = Some boundary →
     handleDecorations st cell PosCol = Some (Some decos) ↔
     Forall2 (λ row d, ∃ cellPos, slot m row (boundary - 1) = Some cellPos ∧
                                  markerOf t start "column-resize-handle" cellPos d)
             (filter (columnMarkerExpected m boundary) (upto (height m))) decos) ∧
  (∀ boundary decos,
     spanEndRow st cell = Some boundary →
     handleDecorations st cell PosRow = Some (Some decos) ↔
     Forall2 (λ col d, ∃ cellPos, slot m (boundary - 1) col = Some cellPos ∧
                                  markerOf t start "row-resize-handle" cellPos d)
             (filter (rowMarkerExpected m boundary) (upto (width m))) decos) ∧
  (∀ p r c node,
     cell = start + p →
     occupiesTwoByTwo m p r c →
     cells t !! p = Some node →
     colspan (attrs node) = 2 →
     rowspan (attrs node) = 2 →
     spanEndColumn st cell = Some (c + 2) ∧
     spanEndRow st cell = Some (r + 2) ∧
     filter (λ row, slot m row (c + 1) = Some p) (colHandleRows m (c + 2)) = [r] ∧
     filter (λ col, slot m (r + 1) col = Some p) (rowHandleCols m (r + 2)) = [c]).
Proof.
  intros t m start. subst t m start. split_and!.
  - intros boundary decos Hend. unfold handleDecorations. rewrite Hend. simpl.
    unfold colHandleRows.
    rewrite (list_filter_iff _ (columnMarkerExpected (tableMap (table st)) boundary))
      by (intros row; apply colHandleAt_expected).
    destruct (mapM _ _) as [ds|] eqn:HmapM; simpl.
    + apply mapM_Some_1 in HmapM. split.
      * intros Heq. injection Heq as <-. eapply Forall2_impl; [exact HmapM|].
        intros row d Hw. apply widgetAt_Some in Hw as (cellPos & Hget & Hmark).
        exists cellPos. split; [|done]. unfold slot. rewrite <- Hget.
        f_equal. lia.
      * intros Hall. do 2 f_equal.
        assert (mapM (λ row, widgetAt (table st) (tableStart st)
                       "column-resize-handle"
                       (boundary + row * width (tableMap (table st)) - 1))
                  (filter (columnMarkerExpected (tableMap (table st)) boundary)
                          (upto (height (tableMap (table st))))) = Some decos)
          as Hdecos.
        { apply mapM_Some_2. eapply Forall2_impl; [exact Hall|].
          intros row d (cellPos & Hslot & Hmark). apply widgetAt_Some.
          exists cellPos. split; [|done]. unfold slot in Hslot.
          rewrite <- Hslot. f_equal. lia. }
        apply mapM_Some_2 in HmapM. congruence.
    + split; [done|]. intros Hall. exfalso.
      assert (mapM (λ row, widgetAt (table st) (tableStart st)
                     "column-resize-handle"
                     (boundary + row * width (tableMap (table st)) - 1))
                (filter (columnMarkerExpected (tableMap (table st)) boundary)
                        (upto (height (tableMap (table st))))) = Some decos)
        as Hdecos; [|congruence].
      apply mapM_Some_2. eapply Forall2_impl; [exact Hall|].
      intros row d (cellPos & Hslot & Hmark). apply widgetAt_Some.
      exists cellPos. split; [|done]. unfold slot in Hslot.
      rewrite <- Hslot. f_equal. lia.
  - intros boundary decos Hend. unfold handleDecorations. rewrite Hend. simpl.
    unfold rowHandleCols.
    rewrite (list_filter_iff _ (rowMarkerExpected (tableMap (table st)) boundary))
      by (intros col; apply rowHandleAt_expected).
    destruct (mapM _ _) as [ds|] eqn:HmapM; simpl.
    + apply mapM_Some_1 in HmapM. split.
      * intros Heq. injection Heq as <-. eapply Forall2_impl; [exact HmapM|].
        intros col d Hw. by apply widgetAt_Some in Hw.
      * intros Hall. do 2 f_equal.
        assert (mapM (λ col, widgetAt (table st) (tableStart st)
                       "row-resize-handle"
                       ((boundary - 1) * width (tableMap (table st)) + col))
                  (filter (rowMarkerExpected (tableMap (table st)) boundary)
                          (upto (width (tableMap (table st))))) = Some decos)
          as Hdecos.
        { apply mapM_Some_2. eapply Forall2_impl; [exact Hall|].
          intros col d Hm. by apply widgetAt_Some. }
        apply mapM_Some_2 in HmapM. congruence.
    + split; [done|]. intros Hall. exfalso.
      assert (mapM (λ col, widgetAt (table st) (tableStart st)
                     "row-resize-handle"
                     ((boundary - 1) * width (tableMap (table st)) + col))
                (filter (rowMarkerExpected (tableMap (table st)) boundary)
                        (upto (width (tableMap (table st))))) = Some decos)
        as Hdecos; [|congruence].
      apply mapM_Some_2. eapply Forall2_impl; [exact Hall|].
      intros col d Hm. by apply widgetAt_Some.
  - intros p r c node -> Hocc Hnode Hcs Hrs.
    unfold spanEndColumn, spanEndRow, nodeAfter.
    replace (tableStart st + p - tableStart st) with p by lia.
    rewrite (twoByTwo_colCount _ _ _ _ Hocc), (twoByTwo_rowCount _ _ _ _ Hocc).
    rewrite Hnode. simpl. rewrite Hcs, Hrs.
    split_and!; [done|done|by apply twoByTwo_colHandleRows
                |by apply twoByTwo_rowHandleCols].
Qed.

Lemma sampleMap_twoByTwo : occupiesTwoByTwo sampleMap 1 0 0.
Proof.
  unfold occupiesTwoByTwo. simpl. split_and!; try lia.
  intros row col Hrow Hcol.
  assert (row = 0 ∨ row = 1 ∨ row = 2) as [-> | [-> | ->]] by lia;
    assert (col = 0 ∨ col = 1 ∨ col = 2) as [-> | [-> | ->]] by lia;
    vm_compute; split; try done; try lia; intros [[? ?] [? ?]]; done.
Qed.

(** In the sample table the cell of two by two at position 11 gets one
    marker from the column loop (together with the one of the cell below
    it) and one from the row loop (together with the one of the cell
    right of it). *)
Lemma handleDecorations_one_marker_per_segment_witness :
  handleDecorations (sampleState None) 11 PosCol =
    Some (Some [ {| widgetPos := 14; className := "column-resize-handle" |};
                 {| widgetPos := 34; className := "column-resize-handle" |} ]) ∧
  handleDecorations (sampleState None) 11 PosRow =
    Some (Some [ {| widgetPos := 14; className := "row-resize-handle" |};
                 {| widgetPos := 24; className := "row-resize-handle" |} ]) ∧
  filter (λ row, slot sampleMap row 1 = Some 1) (colHandleRows sampleMap 2) = [0] ∧
  filter (λ col, slot sampleMap 1 col = Some 1) (rowHandleCols sampleMap 2) = [0].
Proof.
  destruct (handleDecorations_one_marker_per_segment (sampleState None) 11)
    as (_ & _ & Hcell).
  destruct (Hcell 1 0 0 (sampleCell 2 2 None) eq_refl sampleMap_twoByTwo
              eq_refl eq_refl eq_refl) as (_ & _ & Hcols & Hrows).
  split_and!; [reflexivity|reflexivity|exact Hcols|exact Hrows].
Defined.

Lemma zeroes_length (n : Z) (l : list Z) :
  zeroes n = Some l → Z.of_nat (length l) = n ∧ Forall (λ x, x = 0) l.
Proof.
  unfold zeroes. case_decide; [|done]. intros [= <-].
  rewrite length_replicate. split; [lia|]. apply Forall_replicate. done.
Qed.

Lemma wellFormed_widths (t : Table) :
  wellFormed t = true →
  map_Forall (λ _ n, widthsMatchSpan (attrs n)) (cells t).
Proof.
  unfold wellFormed. intros [_ Hinv]%andb_prop.
  by apply bool_decide_eq_true in Hinv.
Qed.

(** C6: the operations that produce cell attributes keep "[colwidth],
    when present, is as long as [colspan]". Parsing a cell keeps a
    [data-colwidth] list only if its length is the parsed [colspan], and
    gives [null] otherwise (the host's extra attributes being named
    otherwise than [colspan] and [colwidth]). Redistribution writes, in
    every step, a width sequence as long as the cell's [colspan], built
    from the stored sequence or from [zeroes(colspan)], which has that
    length; so a table that keeps the invariant keeps it through the run,
    and on a sound table the run goes through. *)
Theorem colwidth_length_is_colspan :
  (∀ (NumberOf : string → Schema.Num) dom extraAttrs,
     "colspan" ∉ extraAttrs.*1 →
     "colwidth" ∉ extraAttrs.*1 →
     let result := Schema.getCellAttrs NumberOf (inl dom) extraAttrs in
     parsedWidthsMatchSpan result ∧
     (result !! "colwidth" = Some Schema.VNull ∨
      ∃ ws, result !! "colwidth" = Some (Schema.VNumbers ws))) ∧
  (∀ view cell w r,
     let inv (cs : gmap Z Node) :=
       map_Forall (λ _ n, widthsMatchSpan (attrs n)) cs in
     inv (cells (table (state view))) →
     updateColumnWidth view cell w = Some r →
     (∀ tr s, r = Some tr → s ∈ tr →
        ∃ new, colwidth (stepAttrs s) = Some new ∧
               Z.of_nat (length new) = colspan (stepAttrs s)) ∧
     inv (cells (tableAfter (tableStart (state view)) (table (state view)) r))) ∧
  (∀ view cell w,
     wellFormed (table (state view)) = true →
     is_Some (nodeAfter (state view) cell) →
     cell - tableStart (state view) ∈ map (tableMap (table (state view))) →
     is_Some (updateColumnWidth view cell w)) ∧
  (∀ n l, zeroes n = Some l → Z.of_nat (length l) = n ∧ Forall (λ x, x = 0) l).
Proof.
  split_and!.
  - intros. by apply getCellAttrs_widths_match_span.
  - intros view cell w r inv Hinv Hrun.
    by apply (updateColumnWidth_keeps_widths_match_span view cell w r).
  - apply updateColumnWidth_total.
  - apply zeroes_length.
Qed.

(** [<td colspan="2" data-colwidth="100,200">] parses to a width list of
    length 2, and the sample table keeps the invariant when its second
    column is resized. *)
Lemma colwidth_length_is_colspan_witness :
  parsedWidthsMatchSpan
    (Schema.getCellAttrs sampleNumber (inl sampleTDMarkup) sampleExtraAttrs) ∧
  Schema.getCellAttrs sampleNumber (inl sampleTDMarkup) sampleExtraAttrs
    !! "colwidth" = Some (Schema.VNumbers [100; 200]) ∧
  map_Forall (λ _ n, widthsMatchSpan (attrs n))
    (cells (tableAfter 10 sampleTable
       (Some [ {| stepPos := 11;
                  stepAttrs := attrs (sampleCell 2 2 (Some [0; 150])) |};
               {| stepPos := 31;
                  stepAttrs := attrs (sampleCell 1 1 (Some [150])) |} ]))) ∧
  is_Some (updateColumnWidth (sampleView None) 11 150).
Proof.
  destruct colwidth_length_is_colspan as (Hparse & Hrun & Htotal & _).
  split_and!.
  - apply (Hparse sampleNumber sampleTDMarkup sampleExtraAttrs).
    + simpl. rewrite list_elem_of_In. simpl. intros [Heq|[]]. discriminate.
    + simpl. rewrite list_elem_of_In. simpl. intros [Heq|[]]. discriminate.
  - reflexivity.
  - apply (Hrun (sampleView None) 11 150).
    + apply wellFormed_widths. reflexivity.
    + reflexivity.
  - apply Htotal; [reflexivity|by eexists|].
    apply list_elem_of_In. simpl. tauto.
Defined.

(** ** Finding the cell under the pointer *)

(** X1: [domCellAround] returns the nearest enclosing [TD] or [TH]
    element: the first element on the way up from the target that is a
    cell, provided no element before it is the editor's root (one whose
    class list holds [ProseMirror]); in every other case it returns
    [null]. *)
Theorem domCellAround_nearest_cell (target : list Element) (el : Element) :
  domCellAround target = Some el ↔
  ∃ inner outer,
    target = inner ++ el :: outer ∧ isCellElement el ∧
    Forall (λ e, ¬ isCellElement e ∧ ¬ isEditorRoot e) inner.
Proof.
  unfold isCellElement, isEditorRoot.
  induction target as [|e parents IH]; simpl.
  - split; [done|]. intros ([|??] & ? & ? & _); done.
  - case_decide as Hcell.
    + split.
      * intros Heq. injection Heq as ->. exists [], parents. by split_and!.
      * intros (inner & outer & Heq & Hel & Hinner).
        destruct inner as [|e' inner]; simpl in Heq.
        -- by injection Heq as <- _.
        -- injection Heq as <- _. apply Forall_cons in Hinner as [[Hno _] _].
           done.
    + destruct (classList e) as [cl|] eqn:Hcl.
      * case_decide as Hroot.
        -- split; [done|].
           intros (inner & outer & Heq & Hel & Hinner).
           destruct inner as [|e' inner]; simpl in Heq; injection Heq as <- ?.
           ++ done.
           ++ apply Forall_cons in Hinner as [[_ Hno] _]. destruct Hno. eauto.
        -- rewrite IH. split.
           ++ intros (inner & outer & -> & Hel & Hinner).
              exists (e :: inner), outer. split_and!; [done|done|].
              apply Forall_cons. split; [|done]. split; [done|].
              intros (cl' & Hcl' & Hin). congruence.
           ++ intros (inner & outer & Heq & Hel & Hinner).
              destruct inner as [|e' inner]; simpl in Heq; injection Heq as <- ?.
              ** done.
              ** apply Forall_cons in Hinner as [_ Hinner]. eauto 6.
      * rewrite IH. split.
        -- intros (inner & outer & -> & Hel & Hinner).
           exists (e :: inner), outer. split_and!; [done|done|].
           apply Forall_cons. split; [|done]. split; [done|].
           intros (cl' & Hcl' & Hin). congruence.
        -- intros (inner & outer & Heq & Hel & Hinner).
           destruct inner as [|e' inner]; simpl in Heq; injection Heq as <- ?.
           ++ done.
           ++ apply Forall_cons in Hinner as [_ Hinner]. eauto 6.
Qed.

(** ** The size a drag starts from *)

Lemma foldl_ext_elem {A B} (f g : B → A → B) (l : list A) (acc : B) :
  (∀ acc x, x ∈ l → f acc x = g acc x) → foldl f acc l = foldl g acc l.
Proof.
  revert acc. induction l as [|x l IH]; intros acc Hfg; [done|].
  simpl. rewrite Hfg by left. apply IH. intros acc' y Hy. apply Hfg. by right.
Qed.

(** Reading an array slot by slot is going through its elements. *)
Lemma foldl_arrayGet {A B} (g : B → option A → B) (l : list A) (acc : B) :
  foldl (λ acc i, g acc (arrayGet l i)) acc (upto (Z.of_nat (length l))) =
  foldl (λ acc x, g acc (Some x)) acc l.
Proof.
  revert acc. induction l as [|x l IH] using rev_ind; intros acc; [done|].
  rewrite length_app. simpl length.
  replace (length l + 1)%nat with (S (length l)) by lia.
  unfold upto in *. rewrite seqZ_S, !foldl_app. simpl.
  rewrite <- IH. f_equal.
  - apply foldl_ext_elem. intros acc' i Hi. f_equal.
    apply elem_of_seqZ in Hi. unfold arrayGet. case_decide; [|lia].
    rewrite lookup_app_l; [done|lia].
  - unfold arrayGet. rewrite decide_True by lia.
    by rewrite list_lookup_middle by lia.
Qed.

(** What the loop of [unsetShare] leaves, for a list as long as the span. *)
Lemma unsetShare_stored (domSize : Z) (l : list Z) :
  unsetShare domSize (Z.of_nat (length l)) (Some l) =
    (domSize - sumSizes l, unsetCount l).
Proof.
  unfold unsetShare.
  rewrite (foldl_arrayGet
             (λ acc o, match o with
                       | Some s => if decide (s ≠ 0) then (acc.1 - s, acc.2 - 1)
                                   else acc
                       | None => acc
                       end) l).
  assert (∀ d p, foldl (λ (acc : Z * Z) x,
                          if decide (x ≠ 0) then (acc.1 - x, acc.2 - 1) else acc)
                       (d, p) l =
                 (d - sumSizes l, p - Z.of_nat (length l) + unsetCount l)) as H.
  { induction l as [|x l IH]; intros d p.
    - simpl. unfold unsetCount. simpl. f_equal; lia.
    - simpl foldl. unfold sumSizes, unsetCount in *. case_decide as Hx.
      + rewrite IH. simpl. rewrite filter_cons_False by done.
        f_equal; simpl; lia.
      + rewrite IH. assert (x = 0) as -> by lia.
        rewrite filter_cons_True by done. simpl. f_equal; lia. }
  rewrite H. f_equal. lia.
Qed.

Lemma unsetCount_last_pos (l : list Z) :
  last l = Some 0 → 0 < unsetCount l.
Proof.
  intros Hlast. unfold unsetCount.
  assert (0 ∈ filter (λ x, x = 0) l) as Hin.
  { apply list_elem_of_filter. split; [done|].
    rewrite last_lookup in Hlast. by eapply list_elem_of_lookup_2. }
  destruct (filter _ l); [by apply elem_of_nil in Hin|]. simpl. lia.
Qed.

Lemma arrayGet_last {A} (l : list A) :
  arrayGet l (Z.of_nat (length l) - 1) = last l.
Proof.
  rewrite last_lookup. unfold arrayGet. destruct l as [|x l]; [done|].
  rewrite decide_True by (simpl; lia). f_equal. simpl. lia.
Qed.

Lemma unsetCount_le_length (l : list Z) : unsetCount l ≤ Z.of_nat (length l).
Proof. unfold unsetCount. pose proof (length_filter (λ x, x = 0) l). lia. Qed.

(** X2: [currentColWidth] and [currentColHeight], for a cell of span at
    least 1 whose stored sizes (if any) are as many as its span. If the
    last stored size is set, it is the result, whatever the element
    measures. If not, the result is the quotient of the rendered size less
    the stored sizes by the number of unset slots; that number is at least
    1 and at most the span, so the division is never one by zero. *)
Theorem currentSize_splits_rendered_size (offsetSize span : Z)
    (sizes : option (list Z)) :
  1 ≤ span →
  (∀ l, sizes = Some l → Z.of_nat (length l) = span) →
  let stored := storedSizes span sizes in
  (∀ s, last stored = Some s → s ≠ 0 →
        currentSize offsetSize span sizes = Whole s) ∧
  (last stored = Some 0 →
   1 ≤ unsetCount stored ≤ span ∧
   currentSize offsetSize span sizes =
     Quotient (offsetSize - sumSizes stored) (unsetCount stored)).
Proof.
  intros Hspan Hinv stored. subst stored.
  unfold currentSize, storedSizes.
  destruct sizes as [l|].
  - specialize (Hinv l eq_refl).
    rewrite arrayGet_last, <- Hinv, unsetShare_stored. split.
    + intros s -> Hs. by rewrite decide_True.
    + intros Hlast. rewrite Hlast, decide_False by lia.
      pose proof (unsetCount_last_pos l Hlast) as Hpos.
      pose proof (unsetCount_le_length l) as Hle.
      split; [lia|done].
  - assert (0 ≤ span) as Hnn by lia.
    assert (unsetCount (replicate (Z.to_nat span) 0) = span) as Hcount.
    { unfold unsetCount.
      assert (∀ n : nat, filter (λ x : Z, x = 0) (replicate n 0) = replicate n 0)
        as Hall.
      { induction n as [|n IH]; [done|]. simpl.
        by rewrite filter_cons_True, IH by done. }
      rewrite Hall, length_replicate. lia. }
    assert (sumSizes (replicate (Z.to_nat span) 0) = 0) as Hsum.
    { unfold sumSizes. clear.
      induction (Z.to_nat span) as [|n IH]; [done|]. simpl. lia. }
    rewrite Hcount, Hsum. simpl. split.
    + intros s Hs Hne. rewrite last_lookup in Hs.
      apply lookup_replicate in Hs as [-> _]. done.
    + intros _. split; [lia|]. f_equal. lia.
Qed.

(** Three cells rendered 250 wide: one over two columns that stores
    [100, 0] is [150 / 1] wide in its last column, one over three columns
    that stores nothing is [250 / 3] wide, and one that stores [0, 80] is
    80 wide. *)
Lemma currentSize_splits_rendered_size_witness :
  currentColWidth 250 (attrs (sampleCell 2 1 (Some [100; 0]))) = Quotient 150 1 ∧
  currentColWidth 250 (attrs (sampleCell 3 1 None)) = Quotient 250 3 ∧
  currentColWidth 250 (attrs (sampleCell 2 1 (Some [0; 80]))) = Whole 80.
Proof.
  split_and!.
  - destruct (currentSize_splits_rendered_size 250 2 (Some [100; 0]))
      as [_ Hshare]; [lia|by intros l [= <-]|].
    exact (proj2 (Hshare eq_refl)).
  - destruct (currentSize_splits_rendered_size 250 3 None)
      as [_ Hshare]; [lia|by intros l [=]|].
    exact (proj2 (Hshare eq_refl)).
  - destruct (currentSize_splits_rendered_size 250 2 (Some [0; 80]))
      as [Hlast _]; [lia|by intros l [= <-]|].
    apply (Hlast 80); [reflexivity|lia].
Defined.

(** ** The handlers and the plugin state *)

(** X4: while a drag is on, the three DOM handlers dispatch nothing:
    [handleMouseMove] and [handleMouseLeave] leave the handle alone and
    [handleMouseDown] returns [false]; and a transaction without a meta
    action of the plugin keeps the drag. *)
Theorem handlers_silent_while_dragging
    (view : EditorView) (event : MouseEvent) (minSize cellMin : Z)
    (lastColumnResizable : bool) (offsetWidth offsetHeight : Z)
    (rowheight : option (list Z)) (ps : ResizeState) (d : Dragging) :
  pluginState (state view) = Some ps →
  dragging ps = Drag d →
  handleMouseMove view event minSize cellMin lastColumnResizable = Some None ∧
  handleMouseLeave view = None ∧
  handleMouseDown view event offsetWidth offsetHeight rowheight = Some None ∧
  (∀ tr, getMeta tr = None →
         ∃ d', dragging (apply ps tr) = Drag d') .
Proof.
  intros Hps Hdrag. unfold handleMouseMove, handleMouseLeave, handleMouseDown.
  rewrite Hps, Hdrag. simpl. split_and!; try done.
  - by case_decide.
  - by case_decide.
  - intros tr Hmeta. unfold apply. rewrite Hmeta.
    case_decide; [destruct (docChanged tr)|]; simpl; rewrite ?Hdrag; eauto.
Qed.

(** The sample view in a drag of the handle at 11. *)
Lemma handlers_silent_while_dragging_witness :
  let ps := atHandle (Drag {| startPosition := 198; startDimension := 100 |})
              PosCol in
  let event := pointerAt 100 38 0 200 in
  handleMouseMove (sampleView (Some ps)) event 5 25 true = Some None ∧
  handleMouseLeave (sampleView (Some ps)) = None ∧
  handleMouseDown (sampleView (Some ps)) event 200 80 None = Some None.
Proof.
  intros ps event.
  destruct (handlers_silent_while_dragging (sampleView (Some ps)) event 5 25
              true 200 80 None ps
              {| startPosition := 198; startDimension := 100 |}
              eq_refl eq_refl) as (Hmove & Hleave & Hdown & _).
  split_and!; [exact Hmove|exact Hleave|exact Hdown].
Defined.

Lemma handleMouseMove_resolved (view : EditorView) (event : MouseEvent)
    (minSize cellMin : Z) (lastColumnResizable : bool) (ps : ResizeState) :
  pluginState (state view) = Some ps →
  isDragging (dragging ps) = None →
  handleMouseMove view event minSize cellMin lastColumnResizable =
    found ← resolvedEdge view event minSize;
    if decide (found.1 ≠ activeHandle ps) then
      if negb lastColumnResizable && bool_decide (found.1 ≠ -1) then
        end_ ← spanEndColumn (state view) found.1;
        if decide (end_ - 1 = width (tableMap (table (state view))) - 1)
        then Some None
        else Some (Some (updateHandle found.1 found.2))
      else Some (Some (updateHandle found.1 found.2))
    else Some None.
Proof.
  intros Hps Hdrag. unfold handleMouseMove, resolvedEdge.
  rewrite Hps, Hdrag.
  destruct (domCellAround (target event)) as [el|];
    [destruct (edgeCandidate _ _ _) as [[axis side]|]|]; simpl; try done.
  by destruct (edgeCell view event side minSize).
Qed.

(** X5: when [handleMouseMove] dispatches, the action it dispatches makes
    the resolved edge cell and axis the state's handle and position, the
    handle differs from the one before, and no drag is on. After that a
    move that resolves to the same cell dispatches nothing, whichever
    axis it resolves to: a handle is set once, and a change of axis on the
    same cell goes unnoticed. *)
Theorem handleMouseMove_sets_handle_once
    (view : EditorView) (event : MouseEvent) (minSize cellMin : Z)
    (lastColumnResizable : bool) (ps : ResizeState) (action : Action)
    (tr : Transaction) :
  pluginState (state view) = Some ps →
  handleMouseMove view event minSize cellMin lastColumnResizable
    = Some (Some action) →
  getMeta tr = Some action →
  let ps' := apply ps tr in
  resolvedEdge view event minSize = Some (activeHandle ps', position ps') ∧
  activeHandle ps' ≠ activeHandle ps ∧
  dragging ps' = DragFalse ∧
  ∀ event' axis',
    resolvedEdge view event' minSize = Some (activeHandle ps', axis') →
    handleMouseMove (withPluginState view ps') event' minSize cellMin
      lastColumnResizable = Some None.
Proof.
  intros Hps Hmove Hmeta ps'. subst ps'.
  assert (isDragging (dragging ps) = None) as Hdrag.
  { unfold handleMouseMove in Hmove. rewrite Hps in Hmove.
    by destruct (isDragging (dragging ps)). }
  rewrite (handleMouseMove_resolved _ _ _ _ _ ps Hps Hdrag) in Hmove.
  destruct (resolvedEdge view event minSize) as [[cell axis]|]; [|done].
  simpl in Hmove.
  assert (cell ≠ activeHandle ps ∧ action = updateHandle cell axis)
    as [Hne ->].
  { case_decide; [|done]. split; [done|].
    destruct (negb lastColumnResizable && bool_decide (cell ≠ -1)).
    - destruct (spanEndColumn (state view) cell); [|done]. simpl in Hmove.
      case_decide; [done|]. by injection Hmove as <-.
    - by injection Hmove as <-. }
  unfold apply. rewrite Hmeta. simpl. split_and!; try done.
  intros event' axis' Hsame.
  rewrite (handleMouseMove_resolved _ _ _ _ _
             {| activeHandle := cell; dragging := DragFalse; position := axis |})
    by done.
  change (resolvedEdge (withPluginState view ?p) event' minSize)
    with (resolvedEdge view event' minSize).
  rewrite Hsame. simpl. by rewrite decide_False by (intros ?; done).
Qed.

(** A pointer 2px inside the bottom of the cell at 11 sets the handle; the
    same move after that sets nothing. *)
Lemma handleMouseMove_sets_handle_once_witness :
  let event := pointerAt 100 38 0 200 in
  let tr := metaTransaction (updateHandle 11 PosRow) in
  handleMouseMove (sampleView (Some idle)) event 5 25 true
    = Some (Some (updateHandle 11 PosRow)) ∧
  handleMouseMove (withPluginState (sampleView (Some idle)) (apply idle tr))
    event 5 25 true = Some None.
Proof.
  intros event tr.
  destruct (handleMouseMove_sets_handle_once (sampleView (Some idle)) event
              5 25 true idle (updateHandle 11 PosRow) tr
              eq_refl eq_refl eq_refl) as (_ & _ & _ & Hagain).
  split; [reflexivity|]. apply (Hagain event PosRow). reflexivity.
Defined.

(** X6: [handleMouseLeave] dispatches exactly when a handle is active
    and no drag is on; what it dispatches brings the state back to the
    initial one, on which it dispatches nothing more. *)
Theorem handleMouseLeave_returns_to_idle (view : EditorView) (ps : ResizeState) :
  pluginState (state view) = Some ps →
  (is_Some (handleMouseLeave view) ↔
   activeHandle ps > -1 ∧ isDragging (dragging ps) = None) ∧
  ∀ action tr,
    handleMouseLeave view = Some action →
    getMeta tr = Some action →
    apply ps tr = initState ∧
    handleMouseLeave (withPluginState view (apply ps tr)) = None.
Proof.
  intros Hps. unfold handleMouseLeave. rewrite Hps. split.
  - case_decide; [destruct (isDragging (dragging ps)) eqn:Hd|].
    + split; [by intros [? ?]|]. by intros [_ ?].
    + split; [done|]. eauto.
    + split; [by intros [? ?]|]. intros [? _]. done.
  - intros action tr Hleave Hmeta.
    case_decide; [|done]. destruct (isDragging (dragging ps)); [done|].
    injection Hleave as <-. unfold apply. rewrite Hmeta. simpl.
    split; done.
Qed.

(** Leaving the editor with the handle at 11 active. *)
Lemma handleMouseLeave_returns_to_idle_witness :
  let ps := atHandle DragFalse PosCol in
  let tr := metaTransaction (updateHandle (-1) PosUndefined) in
  handleMouseLeave (sampleView (Some ps))
    = Some (updateHandle (-1) PosUndefined) ∧
  apply ps tr = initState.
Proof.
  intros ps tr.
  destruct (handleMouseLeave_returns_to_idle (sampleView (Some ps)) ps eq_refl)
    as [_ Hleave].
  split; [reflexivity|].
  exact (proj1 (Hleave (updateHandle (-1) PosUndefined) tr eq_refl eq_refl)).
Defined.



(** X7: after a document change that keeps the handle, the state has an
    active handle but no axis: the class the plugin sets on the editor is
    [undefined-resize-cursor], which is neither of the two cursor classes,
    and no handle decoration is drawn. *)
Theorem view_props_after_document_change
    (st : EditorState) (ps : ResizeState) (tr : Transaction) :
  activeHandle ps > -1 →
  getMeta tr = None →
  docChanged tr = true →
  pointsAtCell tr (mappingMap tr (activeHandle ps) (-1)) = true →
  mappingMap tr (activeHandle ps) (-1) > -1 →
  let ps' := apply ps tr in
  activeHandle ps' > -1 ∧
  attributes (Some ps') = Some "undefined-resize-cursor" ∧
  decorations (withResizeState st ps') = Some None.
Proof.
  intros Hh Hmeta Hdoc Hcell Hmapped ps'. subst ps'.
  unfold apply. rewrite Hmeta, Hdoc, decide_True, Hcell by done. simpl.
  unfold attributes, decorations. simpl.
  by rewrite !decide_True by done.
Qed.

(** The handle at 11 after an insertion of three positions before it. *)
Lemma view_props_after_document_change_witness :
  let ps := atHandle DragFalse PosCol in
  let tr := {| getMeta := None; docChanged := true;
               mappingMap := λ pos _, pos + 3;
               pointsAtCell := λ pos, bool_decide (pos = 14) |} in
  activeHandle (apply ps tr) = 14 ∧
  attributes (Some (apply ps tr)) = Some "undefined-resize-cursor" ∧
  decorations (withResizeState (sampleState None) (apply ps tr)) = Some None.
Proof.
  intros ps tr. split; [reflexivity|].
  exact (proj2 (view_props_after_document_change (sampleState None) ps tr
                  ltac:(simpl; lia) eq_refl eq_refl eq_refl
                  ltac:(simpl; lia))).
Defined.

(** ** The cell an edge belongs to *)

(** X8: [edgeCell] returns [-1] or the position of one cell. For the
    right and the bottom edge it is the cell found [minSize] pixels inside
    the pointer's cell. For the left and the top edge it is found from
    the first slot [(row, col)] the found cell has in the grid: the cell
    in the slot before it in the row, [(row, col - 1)], for the left edge,
    and the cell in the slot above it, [(row - 1, col)], for the top edge;
    that cell is never the found cell itself. *)
Theorem edgeCell_attributes_edge_to_one_cell
    (view : EditorView) (event : MouseEvent) (side : Side) (minSize : Z)
    (cell : Z) :
  let m := tableMap (table (state view)) in
  let start := tableStart (state view) in
  0 < width m →
  edgeCell view event side minSize = Some cell →
  cell = -1 ∨
  ∃ pos found,
    posAtCoords view
      (clientX event + (if decide (side = SideLeft) then minSize
                        else if decide (side = SideRight) then - minSize else 0))
      (clientY event + (if decide (side = SideTop) then minSize
                        else if decide (side = SideBottom) then - minSize else 0))
      = Some pos ∧
    cellAround view pos = Some found ∧
    if decide (side = SideRight ∨ side = SideBottom) then cell = found
    else
      ∃ row col,
        0 ≤ row ∧ 0 ≤ col < width m ∧
        indexOf (map m) (found - start) = row * width m + col ∧
        slot m row col = Some (found - start) ∧
        (if decide (side = SideLeft)
         then 0 < col ∧ slot m row (col - 1) = Some (cell - start)
         else 0 < row ∧ slot m (row - 1) col = Some (cell - start)) ∧
        cell ≠ found.
Proof.
  intros m start Hw Hedge. subst m start. unfold edgeCell in Hedge.
  set (m := tableMap (table (state view))) in *.
  set (start := tableStart (state view)) in *.
  assert ((∃ pos, posAtCoords view
      (clientX event + (if decide (side = SideLeft) then minSize
                        else if decide (side = SideRight) then - minSize else 0))
      (clientY event + (if decide (side = SideTop) then minSize
                        else if decide (side = SideBottom) then - minSize else 0))
      = Some pos ∧
      match cellAround view pos with
      | Some cellPos =>
          if decide (side = SideRight ∨ side = SideBottom) then Some cellPos
          else
            let index := indexOf (map m) (cellPos - start) in
            if decide (side = SideTop) then
              if decide (index < width m) then Some (-1)
              else p ← arrayGet (map m) (index - width m); Some (start + p)
            else
              if decide (width m ≠ 0 ∧ index `rem` width m = 0) then Some (-1)
              else p ← arrayGet (map m) (index - 1); Some (start + p)
      | None => Some (-1)
      end = Some cell) ∨ cell = -1) as Hcases.
  { destruct side; simpl in Hedge |- *;
      match type of Hedge with
      | match ?q with _ => _ end = _ =>
          destruct q as [pos|] eqn:Hq; [left; exists pos|right; congruence]
      end;
      (split; [|exact Hedge]);
      rewrite <- Hq; f_equal; lia. }
  destruct Hcases as [(pos & Hpos & Hrest)| ->]; [|by left].
  destruct (cellAround view pos) as [found|] eqn:Hfound;
    [|left; congruence].
  destruct (decide (cell = -1)) as [|Hne]; [by left|right].
  exists pos, found. split_and!; [done|done|].
  clear Hedge Hpos.
  destruct (decide (side = SideRight ∨ side = SideBottom)) as [Hside|Hside];
    [congruence|].
  cbv zeta in Hrest.
  set (index := indexOf (map m) (found - start)) in *.
  assert (∃ p j, arrayGet (map m) j = Some p ∧ cell = start + p ∧
                 if decide (side = SideLeft)
                 then j = index - 1 ∧ index `rem` width m ≠ 0
                 else j = index - width m ∧ width m ≤ index)
    as (p & j & Hp & -> & Hj).
  { destruct (decide (side = SideTop)) as [Htop|Htop].
    - destruct (decide (index < width m)); [congruence|].
      destruct (arrayGet (map m) (index - width m)) as [p|] eqn:Hp; [|done].
      simpl in Hrest. exists p, (index - width m).
      rewrite decide_False by (subst side; done).
      split_and!; [done|congruence|done|lia].
    - destruct (decide (width m ≠ 0 ∧ index `rem` width m = 0)) as [|Hrem];
        [congruence|].
      destruct (arrayGet (map m) (index - 1)) as [p|] eqn:Hp; [|done].
      simpl in Hrest. exists p, (index - 1).
      rewrite decide_True by (destruct side; tauto).
      split_and!; [done|congruence|done|]. intros Hzero. apply Hrem.
      split; [lia|done]. }
  assert (0 ≤ j) as Hj0.
  { unfold arrayGet in Hp. by destruct (decide (0 ≤ j)). }
  assert (j < index) as Hlt.
  { destruct (decide (side = SideLeft)); destruct Hj; lia. }
  clear Hrest.
  assert (index ≠ -1) as Hfoundidx by lia.
  destruct (indexOf_found (map m) (found - start) Hfoundidx)
    as (Hrange & Hget & Hmin).
  pose proof (Z.div_mod index (width m) ltac:(lia)) as Hdm.
  pose proof (Z.mod_pos_bound index (width m) Hw) as Hmod.
  assert (0 ≤ index `div` width m) as Hrow by (apply Z.div_pos; lia).
  exists (index `div` width m), (index `mod` width m).
  unfold slot. split_and!; [done|lia|lia|lia| | |].
  - rewrite <- Hget. f_equal. lia.
  - replace (start + p - start) with p by lia. case_decide.
    + destruct Hj as [-> Hrem]. rewrite Z.rem_mod_nonneg in Hrem by lia.
      split; [lia|]. rewrite <- Hp. f_equal. lia.
    + destruct Hj as [-> Hge]. split; [nia|]. rewrite <- Hp. f_equal. lia.
  - intros Heq. apply (Hmin j); [lia|]. rewrite Hp. f_equal. lia.
Qed.

(** A pointer 2px right of the left edge of the third column: the cell
    found is the one at 15, whose first slot is [(0, 2)]; the edge belongs
    to the cell at 11, which holds the slot [(0, 1)]. *)
Lemma edgeCell_attributes_edge_to_one_cell_witness :
  let event := pointerAt 202 20 200 300 in
  edgeCell (sampleView (Some idle)) event SideLeft 5 = Some 11 ∧
  ∃ pos found row col,
    posAtCoords (sampleView (Some idle)) 207 20 = Some pos ∧
    cellAround (sampleView (Some idle)) pos = Some found ∧
    indexOf (map sampleMap) (found - 10) = row * 3 + col ∧
    slot sampleMap row (col - 1) = Some (11 - 10) ∧
    11 ≠ found.
Proof.
  intros event. split; [reflexivity|].
  destruct (edgeCell_attributes_edge_to_one_cell (sampleView (Some idle))
              event SideLeft 5 11 ltac:(simpl; lia) eq_refl)
    as [Hnone|(pos & found & Hpos & Hfound & Hrest)]; [lia|].
  destruct (decide (SideLeft = SideRight ∨ SideLeft = SideBottom))
    as [[Hside|Hside]|_]; [discriminate Hside|discriminate Hside|].
  destruct Hrest as (row & col & _ & _ & Hindex & _ & Hbefore & Hneq).
  destruct (decide (SideLeft = SideLeft)) as [_|Hside]; [|by destruct Hside].
  exists pos, found, row, col.
  split_and!; [exact Hpos|exact Hfound|exact Hindex|exact (proj2 Hbefore)|
               exact Hneq].
Defined.

(** ** Committing a drag *)

Lemma inColumn_Exists (m : TableMap) (col pos : Z) :
  inColumn m col pos ↔
  Exists (λ row, arrayGet (map m) (row * width m + col) = Some pos)
         (upto (height m)).
Proof.
  unfold inColumn, upto. rewrite Exists_exists.
  split; intros (row & H1 & H2); exists row.
  - split; [|done]. apply elem_of_seqZ. lia.
  - apply elem_of_seqZ in H1. split; [lia|done].
Qed.

Lemma inColumn_cases (m : TableMap) (col pos : Z) :
  inColumn m col pos ∨ ¬ inColumn m col pos.
Proof.
  rewrite inColumn_Exists.
  destruct (decide (Exists
              (λ row, arrayGet (map m) (row * width m + col) = Some pos)
              (upto (height m)))); eauto.
Qed.

(** The frame of one run of the loop, on the table its steps give. *)
Lemma widthSteps_frame (t : Table) (start k w : Z) (tr : list MarkupStep) :
  widthSteps t start k w = Some tr →
  onlyColumnEntryChanged t k w (applySteps start t tr).
Proof.
  intros Hsteps. unfold onlyColumnEntryChanged. simpl.
  split; [done|]. intros pos node Hnode.
  destruct (widthSteps_post _ _ _ _ tr pos node Hsteps Hnode)
    as [(Hin & index & a' & Hindex & Hrw & _ & Hpost)|[Hnone Hpost]].
  - exists {| attrs := a'; nodeSize := nodeSize node |}.
    destruct Hrw as (_ & _ & new & Hset & ->). simpl.
    split_and!; try done. intros _. exists index.
    unfold storedWidths at 1 2. simpl. split_and!; try done.
    + by eapply arrayGet_arraySet_eq.
    + intros j Hj. by eapply arrayGet_arraySet_ne.
    + intros Hc H3. unfold spanIndex in Hindex.
      rewrite decide_False in Hindex by lia. rewrite Hc in Hindex.
      simpl in Hindex. injection Hindex as <-. lia.
  - exists node. split_and!; try done. intros Hin.
    destruct (widthSteps_column _ _ _ _ tr pos Hsteps Hin)
      as (node0 & index & Hnode0 & Hindex & Hcase).
    rewrite Hnode in Hnode0. injection Hnode0 as <-.
    destruct Hcase as [Hholds|(s & Hs & Hspos)]; [|by destruct (Hnone s)].
    exists index. split_and!; try done.
    + by apply holdsWidth_stored.
    + intros Hc H3. unfold spanIndex in Hindex.
      rewrite decide_False in Hindex by lia. rewrite Hc in Hindex.
      simpl in Hindex. injection Hindex as <-. lia.
Qed.

Lemma tableAfter_frame (view : EditorView) (cell w k : Z)
    (r : option (list MarkupStep)) :
  spanEndColumn (state view) cell = Some (k + 1) →
  updateColumnWidth view cell w = Some r →
  onlyColumnEntryChanged (table (state view)) k w
    (tableAfter (tableStart (state view)) (table (state view)) r).
Proof.
  intros Hend Hrun. unfold updateColumnWidth in Hrun. rewrite Hend in Hrun.
  simpl in Hrun. replace (k + 1 - 1) with k in Hrun by lia.
  destruct (widthSteps _ _ _ _) as [tr|] eqn:Hsteps; [|done].
  simpl in Hrun. injection Hrun as <-.
  case_decide as Htr; [|by apply widthSteps_frame].
  subst tr. simpl. apply (widthSteps_frame _ _ _ _ [] Hsteps).
Qed.

(** In a sound table a cell with a slot in column [k] spans that column. *)
Lemma wellFormed_column (t : Table) (k pos : Z) :
  wellFormed t = true →
  0 ≤ k < width (tableMap t) →
  inColumn (tableMap t) k pos →
  ∃ node c, cells t !! pos = Some node ∧ colCount (tableMap t) pos = Some c ∧
            c ≤ k < c + colspan (attrs node).
Proof.
  set (m := tableMap t). intros Hwf Hk (row & Hrow & Hget).
  unfold wellFormed in Hwf. fold m in Hwf.
  apply andb_prop in Hwf as [Hwf _]. apply andb_prop in Hwf as [Hdim Hslots].
  apply bool_decide_eq_true in Hdim as (Hw & Hh & Hlen).
  rewrite forallb_forall in Hslots.
  specialize (Hslots (row * width m + k)).
  rewrite <- list_elem_of_In in Hslots. unfold upto in Hslots.
  rewrite elem_of_seqZ in Hslots. specialize (Hslots ltac:(nia)).
  unfold slotSound in Hslots. fold m in Hslots. rewrite Hget in Hslots.
  destruct (cells t !! pos) as [node|]; [|done].
  destruct (colCount m pos) as [c|]; [|done].
  apply bool_decide_eq_true in Hslots as [Hspan _].
  replace ((row * width m + k) `mod` width m) with k in Hspan; last first.
  { rewrite Z.add_comm, Z.mod_add, Z.mod_small; lia. }
  by exists node, c.
Qed.

(** X11: resizing two different grid columns of a sound table, one
    after the other, leaves every cell with the first width at its index
    for the first column and the second width at its index for the second
    column, and leaves the cells in neither column as they were: the
    second run does not undo the first. *)
Theorem resizes_of_two_columns_are_independent
    (view view1 : EditorView) (cell1 cell2 w1 w2 k1 k2 : Z)
    (r1 r2 : option (list MarkupStep)) :
  let st := state view in
  let t := table st in
  let m := tableMap t in
  wellFormed t = true →
  0 ≤ k1 < width m → 0 ≤ k2 < width m → k1 ≠ k2 →
  spanEndColumn st cell1 = Some (k1 + 1) →
  updateColumnWidth view cell1 w1 = Some r1 →
  table (state view1) = tableAfter (tableStart st) t r1 →
  tableStart (state view1) = tableStart st →
  spanEndColumn (state view1) cell2 = Some (k2 + 1) →
  updateColumnWidth view1 cell2 w2 = Some r2 →
  let t2 := tableAfter (tableStart st) (table (state view1)) r2 in
  ∀ pos node, cells t !! pos = Some node →
    ∃ node2, cells t2 !! pos = Some node2 ∧
      (inColumn m k1 pos →
       ∃ index, spanIndex m (attrs node) k1 pos = Some index ∧
                arrayGet (storedWidths (attrs node2)) index = Some w1) ∧
      (inColumn m k2 pos →
       ∃ index, spanIndex m (attrs node) k2 pos = Some index ∧
                arrayGet (storedWidths (attrs node2)) index = Some w2) ∧
      (¬ inColumn m k1 pos → ¬ inColumn m k2 pos → node2 = node).
Proof.
  intros st t m Hwf Hk1 Hk2 Hne Hend1 Hrun1 Htable1 Hstart1 Hend2 Hrun2 t2.
  subst st t m t2.
  pose proof (tableAfter_frame view cell1 w1 k1 r1 Hend1 Hrun1) as [Hmap1 Hframe1].
  pose proof (tableAfter_frame view1 cell2 w2 k2 r2 Hend2 Hrun2) as [Hmap2 Hframe2].
  rewrite Hstart1 in Hmap2, Hframe2. rewrite Htable1 in Hframe2.
  rewrite Htable1 in Hmap2 |- *. rewrite Hmap1 in Hframe2.
  set (t := table (state view)) in *. set (start := tableStart (state view)) in *.
  set (t1 := tableAfter start t r1) in *.
  intros pos node Hnode.
  destruct (Hframe1 pos node Hnode)
    as (node1 & Hnode1 & _ & Hspan1 & _ & _ & Hout1 & Hin1).
  destruct (Hframe2 pos node1 Hnode1)
    as (node2 & Hnode2 & _ & Hspan2 & _ & _ & Hout2 & Hin2).
  exists node2. split_and!; [done| | |].
  - intros Hcol1.
    destruct (Hin1 Hcol1) as (index1 & Hindex1 & Hw1 & _).
    exists index1. split; [done|].
    destruct (inColumn_cases (tableMap t) k2 pos) as [Hcol2|Hcol2];
      [|by rewrite (Hout2 Hcol2)].
    destruct (Hin2 Hcol2) as (index2 & Hindex2 & _ & Hothers & _).
    rewrite Hothers; [done|].
    rewrite (spanIndex_colspan _ _ _ _ _ Hspan1) in Hindex2.
    destruct (wellFormed_column t k1 pos Hwf Hk1 Hcol1)
      as (n1 & c1 & Hn1 & Hc1 & Hr1).
    destruct (wellFormed_column t k2 pos Hwf Hk2 Hcol2)
      as (n2 & c2 & Hn2 & Hc2 & Hr2).
    rewrite Hnode in Hn1, Hn2. injection Hn1 as <-. injection Hn2 as <-.
    rewrite Hc1 in Hc2. injection Hc2 as <-.
    unfold spanIndex in Hindex1, Hindex2.
    rewrite decide_False in Hindex1, Hindex2 by lia.
    rewrite Hc1 in Hindex1, Hindex2. simpl in *.
    injection Hindex1 as <-. injection Hindex2 as <-. lia.
  - intros Hcol2.
    destruct (Hin2 Hcol2) as (index2 & Hindex2 & Hw2 & _).
    exists index2. split; [|done].
    by rewrite <- (spanIndex_colspan _ _ _ _ _ Hspan1).
  - intros Hcol1 Hcol2. by rewrite (Hout2 Hcol2), (Hout1 Hcol1).
Qed.

(** The first column of the sample table resized to 90 from the cell at
    27, then the third to 120 from the cell at 15: the cell at offset 1,
    which starts in the first column, holds 90 at index 0 afterwards. *)
Lemma resizes_of_two_columns_are_independent_witness :
  let r1 := Some [ {| stepPos := 11;
                      stepAttrs := attrs (sampleCell 2 2 (Some [90; 0])) |};
                   {| stepPos := 27;
                      stepAttrs := attrs (sampleCell 1 1 (Some [90])) |} ] in
  let r2 := Some [ {| stepPos := 15;
                      stepAttrs := attrs (sampleCell 1 1 (Some [120])) |};
                   {| stepPos := 21;
                      stepAttrs := attrs (sampleCell 1 1 (Some [120])) |};
                   {| stepPos := 35;
                      stepAttrs := attrs (sampleCell 1 1 (Some [120])) |} ] in
  updateColumnWidth (sampleView None) 27 90 = Some r1 ∧
  updateColumnWidth (viewAfter r1) 15 120 = Some r2 ∧
  ∃ node2 index,
    cells (tableAfter 10 (table (state (viewAfter r1))) r2) !! 1 = Some node2 ∧
    spanIndex sampleMap (attrs (sampleCell 2 2 None)) 0 1 = Some index ∧
    arrayGet (storedWidths (attrs node2)) index = Some 90.
Proof.
  intros r1 r2. split_and!; [reflexivity|reflexivity|].
  destruct (resizes_of_two_columns_are_independent (sampleView None)
              (viewAfter r1) 27 15 90 120 0 2 r1 r2 eq_refl
              ltac:(simpl; lia) ltac:(simpl; lia) ltac:(lia)
              eq_refl eq_refl eq_refl eq_refl eq_refl eq_refl
              1 (sampleCell 2 2 None) eq_refl)
    as (node2 & Hnode2 & Hfirst & _ & _).
  destruct Hfirst as (index & Hindex & Hwidth).
  { exists 0. split; [simpl; lia|reflexivity]. }
  exists node2, index. split_and!; [exact Hnode2|exact Hindex|exact Hwidth].
Defined.

(** X9: [finish], the [mouseup] listener, while a drag is on. It runs
    [updateColumnWidth] with the dragged dimension and then dispatches the
    meta action that ends the drag, which is always its last dispatch.
    Every step of the document transaction writes the dragged dimension
    into a [colwidth], at the cell's index for the grid column the handle
    cell ends in: also when the drag is one of a row handle, whose
    dimension is measured along [clientY]. The meta action leaves no drag
    on and no axis, and keeps the handle. *)
Theorem finish_commits_column_width
    (view : EditorView) (event : MouseEvent) (cellMin : Z)
    (ps : ResizeState) (d : Dragging) :
  let st := state view in
  let coordinate :=
    if decide (position ps = PosCol) then clientX event else clientY event in
  let w := Z.max cellMin (startDimension d + (coordinate - startPosition d)) in
  let released :=
    DispatchMeta {| setHandle := None; setDragging := Some DragNull;
                    setPosition := PosUndefined |} in
  pluginState st = Some ps →
  dragging ps = Drag d →
  (finish view event cellMin =
     r ← updateColumnWidth view (activeHandle ps) w;
     Some (match r with
           | Some tr => [DispatchSteps tr; released]
           | None => [released]
           end)) ∧
  (∀ out tr s,
     finish view event cellMin = Some out →
     DispatchSteps tr ∈ out → s ∈ tr →
     ∃ k pos node index new,
       spanEndColumn st (activeHandle ps) = Some (k + 1) ∧
       cells (table st) !! pos = Some node ∧
       stepPos s = tableStart st + pos ∧
       spanIndex (tableMap (table st)) (attrs node) k pos = Some index ∧
       colwidth (stepAttrs s) = Some new ∧
       arrayGet new index = Some w) ∧
  (∀ out, finish view event cellMin = Some out → last out = Some released) ∧
  (∀ ps0 tr,
     getMeta tr = Some {| setHandle := None; setDragging := Some DragNull;
                          setPosition := PosUndefined |} →
     isDragging (dragging (apply ps0 tr)) = None ∧
     position (apply ps0 tr) = PosUndefined ∧
     activeHandle (apply ps0 tr) = activeHandle ps0).
Proof.
  intros st coordinate w released Hps Hdrag. subst st.
  assert (draggedDimension (position ps) d event cellMin = w) as Hw.
  { unfold draggedDimension. subst w coordinate. by case_decide. }
  assert (finish view event cellMin =
            r ← updateColumnWidth view (activeHandle ps) w;
            Some (match r with
                  | Some tr => [DispatchSteps tr; released]
                  | None => [released]
                  end)) as Hfinish.
  { unfold finish. rewrite Hps, Hdrag. simpl. by rewrite Hw. }
  split_and!.
  - exact Hfinish.
  - intros out tr s Hout Htr Hs. rewrite Hfinish in Hout.
    destruct (updateColumnWidth view (activeHandle ps) w) as [r|] eqn:Hrun;
      [|done].
    simpl in Hout. injection Hout as <-.
    destruct (updateColumnWidth_inv view _ w r Hrun)
      as (e & tr' & He & Hsteps & Hr & _).
    assert (tr' = tr) as ->.
    { destruct r as [tr0|].
      - apply elem_of_cons in Htr as [Heq|Htr].
        + injection Heq as ->. case_decide; congruence.
        + apply list_elem_of_singleton in Htr. subst released. done.
      - apply list_elem_of_singleton in Htr. subst released. done. }
    destruct (widthSteps_elem _ _ _ _ _ _ Hsteps Hs) as (row & _ & Hstep).
    destruct (widthStep_emits _ _ _ _ _ _ Hstep)
      as (pos & node & index & _ & Hnode & Hindex & Hspos & Hrw).
    destruct Hrw as (_ & _ & new & Hset & Hattrs).
    exists (e - 1), pos, node, index, new.
    split_and!; try done.
    + rewrite He. f_equal. lia.
    + by rewrite Hattrs.
    + by eapply arrayGet_arraySet_eq.
  - intros out Hout. rewrite Hfinish in Hout.
    destruct (updateColumnWidth view (activeHandle ps) w) as [[tr|]|];
      simpl in Hout; [| |done]; by injection Hout as <-.
  - intros ps0 tr Hmeta. unfold apply. by rewrite Hmeta.
Qed.

(** The release of a row drag on the handle at 11 that started at
    y = 20 from a height of 100, with the pointer at y = 70: the second
    grid column is set to a width of 150. *)
Lemma finish_commits_column_width_witness :
  let ps := atHandle (Drag {| startPosition := 20; startDimension := 100 |})
              PosRow in
  let event := pointerAt 500 70 0 200 in
  finish (sampleView (Some ps)) event 25 =
    Some [ DispatchSteps
             [ {| stepPos := 11;
                  stepAttrs := attrs (sampleCell 2 2 (Some [0; 150])) |};
               {| stepPos := 31;
                  stepAttrs := attrs (sampleCell 1 1 (Some [150])) |} ];
           DispatchMeta {| setHandle := None; setDragging := Some DragNull;
                           setPosition := PosUndefined |} ].
Proof.
  intros ps event.
  destruct (finish_commits_column_width (sampleView (Some ps)) event 25 ps
              {| startPosition := 20; startDimension := 100 |}
              eq_refl eq_refl) as [Hrun _].
  rewrite Hrun. reflexivity.
Defined.

(** X10: on a sound table, for a handle on one of its cells,
    [handleDecorations] on the column axis returns a decoration set: it
    does not throw. The set holds at most one widget per grid row, each of
    the class [column-resize-handle] and each placed at the last position
    inside a cell of the table. *)
Theorem handleDecorations_column_total (st : EditorState) (cell : Z) :
  let t := table st in
  let m := tableMap t in
  wellFormed t = true →
  is_Some (nodeAfter st cell) →
  cell - tableStart st ∈ map m →
  ∃ decos,
    handleDecorations st cell PosCol = Some (Some decos) ∧
    Z.of_nat (length decos) ≤ height m ∧
    Forall (λ d, className d = "column-resize-handle" ∧
                 ∃ p node, p ∈ map m ∧ cells t !! p = Some node ∧
                           widgetPos d = tableStart st + p + nodeSize node - 1)
           decos.
Proof.
  intros t m Hwf Hnode Hin. subst t m.
  destruct (spanEndColumn_in_grid st cell Hwf Hnode Hin) as (k & Hend & Hk).
  set (t := table st) in *. set (m := tableMap t) in *.
  pose proof Hwf as Hwf'. unfold wellFormed in Hwf'. fold m in Hwf'.
  apply andb_prop in Hwf' as [Hwf' _].
  apply andb_prop in Hwf' as [Hdim Hslots].
  apply bool_decide_eq_true in Hdim as (Hw & Hh & Hlen).
  rewrite forallb_forall in Hslots.
  unfold handleDecorations. rewrite Hend. simpl. fold t m.
  assert (is_Some (mapM (λ row, widgetAt t (tableStart st) "column-resize-handle"
                                  (k + 1 + row * width m - 1))
                        (colHandleRows m (k + 1)))) as [decos Hdecos].
  { apply mapM_is_Some_2, Forall_forall. intros row Hrow. simpl.
    unfold colHandleRows in Hrow. apply list_elem_of_filter in Hrow as [_ Hrow].
    unfold upto in Hrow. apply elem_of_seqZ in Hrow.
    specialize (Hslots (k + 1 + row * width m - 1)).
    rewrite <- list_elem_of_In in Hslots. unfold upto in Hslots.
    rewrite elem_of_seqZ in Hslots. specialize (Hslots ltac:(nia)).
    unfold slotSound in Hslots. fold m in Hslots. unfold widgetAt. fold m.
    destruct (arrayGet (map m) (k + 1 + row * width m - 1)) as [p|]; [|done].
    simpl. by destruct (cells t !! p). }
  rewrite Hdecos. simpl. exists decos. split; [done|].
  apply mapM_Some_1 in Hdecos. split.
  - rewrite <- (Forall2_length _ _ _ Hdecos). unfold colHandleRows.
    pose proof (length_filter (λ row, colHandleAt m (k + 1) row) (upto (height m)))
      as Hle.
    unfold upto in Hle |- *. rewrite length_seqZ in Hle. lia.
  - apply Forall_forall. intros d Hd.
    apply list_elem_of_lookup in Hd as [i Hi].
    destruct (Forall2_lookup_r _ _ _ _ _ Hdecos Hi) as (row & _ & Hwidget).
    apply widgetAt_Some in Hwidget as (p & Hp & node & Hn & ->).
    split; [done|]. exists p, node. split_and!; try done.
    unfold arrayGet in Hp. case_decide; [|done].
    by eapply list_elem_of_lookup_2.
Qed.

(** The sample table is sound: the handle at 11 gets a decoration set of
    at most three widgets. *)
Lemma handleDecorations_column_total_witness :
  ∃ decos,
    handleDecorations (sampleState None) 11 PosCol = Some (Some decos) ∧
    Z.of_nat (length decos) ≤ 3.
Proof.
  destruct (handleDecorations_column_total (sampleState None) 11)
    as (decos & Hdecos & Hlen & _).
  - reflexivity.
  - by eexists.
  - apply list_elem_of_In. simpl. tauto.
  - exists decos. split; [exact Hdecos|exact Hlen].
Defined.

(** ** Writing attributes and reading them back *)

Lemma decimalFrom_uint_acc (d : Decimal.uint) (acc : positive) :
  Schema.decimalFrom (Z.pos acc) (NilEmpty.string_of_uint d) =
  Z.pos (Pos.of_uint_acc d acc).
Proof.
  revert acc. induction d; intros acc; simpl; [done|..];
    match goal with
    | |- context [Z.of_nat (nat_of_ascii ?c) - 48] =>
        let v := eval vm_compute in (Z.of_nat (nat_of_ascii c) - 48) in
        change (Z.of_nat (nat_of_ascii c) - 48) with v
    end;
    rewrite <- IHd; f_equal; lia.
Qed.

Lemma decimalFrom_uint (d : Decimal.uint) :
  Schema.decimalFrom 0 (NilEmpty.string_of_uint d) = Z.of_N (Pos.of_uint d).
Proof.
  induction d; simpl; [done|..];
    match goal with
    | |- context [Z.of_nat (nat_of_ascii ?c) - 48] =>
        let v := eval vm_compute in (Z.of_nat (nat_of_ascii c) - 48) in
        change (Z.of_nat (nat_of_ascii c) - 48) with v
    end;
    [done|..]; change (10 * 0 + ?x) with x; by rewrite decimalFrom_uint_acc.
Qed.

Lemma allDigits_uint (d : Decimal.uint) :
  allDigits (NilEmpty.string_of_uint d) = true.
Proof. induction d; simpl; done. Qed.

Lemma numberToString_pos (p : positive) :
  Schema.numberToString (Z.pos p) = NilEmpty.string_of_uint (Pos.to_uint p).
Proof.
  unfold Schema.numberToString. simpl.
  pose proof (Unsigned.to_uint_nonnil p) as Hnn.
  by destruct (Pos.to_uint p).
Qed.

(** The digits of a number that is not negative are read back as it. *)
Lemma decimal_numberToString (z : Z) :
  0 ≤ z →
  Schema.decimal (Schema.numberToString z) = z ∧
  allDigits (Schema.numberToString z) = true ∧
  Schema.numberToString z ≠ EmptyString.
Proof.
  intros Hz. destruct z as [|p|p]; [done| |lia].
  rewrite numberToString_pos. split_and!.
  - unfold Schema.decimal. rewrite decimalFrom_uint.
    by rewrite Unsigned.of_to.
  - apply allDigits_uint.
  - pose proof (Unsigned.to_uint_nonnil p) as Hnn.
    by destruct (Pos.to_uint p).
Qed.

Lemma allDigits_app_digitList (s rest : string) (b : bool) :
  allDigits s = true → s ≠ EmptyString →
  Schema.digitListFrom b (String.append s rest) = Schema.digitListFrom true rest.
Proof.
  revert b. induction s as [|c s IH]; intros b Hs Hne; [done|].
  simpl in *. apply andb_true_iff in Hs as [Hc Hs]. rewrite Hc.
  destruct s as [|c' s]; [done|]. by apply IH.
Qed.

Lemma allDigits_digitList (s : string) (b : bool) :
  allDigits s = true → s ≠ EmptyString → Schema.digitListFrom b s = true.
Proof.
  revert b. induction s as [|c s IH]; intros b Hs Hne; [done|].
  simpl in *. apply andb_true_iff in Hs as [Hc Hs]. rewrite Hc.
  destruct s as [|c' s]; [done|]. by apply IH.
Qed.

Lemma isDigit_not_comma (c : ascii) :
  Schema.isDigit c = true → Ascii.eqb c "," = false.
Proof.
  intros Hc. destruct (Ascii.eqb_spec c ",") as [->|]; [|done].
  by vm_compute in Hc.
Qed.

Lemma allDigits_app_split (s rest : string) :
  allDigits s = true →
  Schema.split "," (String.append s (String "," rest)) = s :: Schema.split "," rest.
Proof.
  induction s as [|c s IH]; intros Hs; [done|].
  simpl in *. apply andb_true_iff in Hs as [Hc Hs].
  rewrite (isDigit_not_comma _ Hc). by rewrite IH.
Qed.

Lemma allDigits_split (s : string) :
  allDigits s = true → Schema.split "," s = [s].
Proof.
  induction s as [|c s IH]; intros Hs; [done|].
  simpl in *. apply andb_true_iff in Hs as [Hc Hs].
  rewrite (isDigit_not_comma _ Hc). by rewrite IH.
Qed.

(** The text [join(',')] makes of widths that are not negative is a
    digit list, and splitting it at the commas gives the widths back. *)
Lemma joinWidths_parses (l : list Z) :
  l ≠ [] → Forall (λ w, 0 ≤ w) l →
  Schema.isDigitList (Schema.joinWidths l) = true ∧
  Schema.decimal <$> Schema.split "," (Schema.joinWidths l) = l.
Proof.
  unfold Schema.isDigitList, Schema.joinWidths.
  induction l as [|w l IH]; intros Hne Hl; [done|].
  apply Forall_cons in Hl as [Hw Hl].
  destruct (decimal_numberToString w Hw) as (Hdec & Hdig & Hnn).
  destruct l as [|w' l].
  - simpl. split.
    + by apply allDigits_digitList.
    + rewrite allDigits_split by done. simpl. by rewrite Hdec.
  - destruct IH as [IH1 IH2]; [done|done|].
    change (String.concat "," (Schema.numberToString <$> w :: w' :: l))
      with (String.append (Schema.numberToString w)
              (String "," (String.concat "," (Schema.numberToString <$> w' :: l)))).
    split.
    + rewrite allDigits_app_digitList by done. simpl. exact IH1.
    + rewrite allDigits_app_split by done. rewrite fmap_cons.
      by rewrite IH2, Hdec.
Qed.

Lemma numberToString_nonempty (z : Z) : Schema.numberToString z ≠ EmptyString.
Proof.
  destruct z as [|p|p]; [done| |done].
  rewrite numberToString_pos.
  pose proof (Unsigned.to_uint_nonnil p) as Hnn.
  by destruct (Pos.to_uint p).
Qed.

Lemma foldl_writeExtra_lookup (value : string → Schema.Value)
    (setters : list (string * option Schema.SetDOMAttr))
    (attrs : gmap string Schema.Value) (name : string) :
  keepsAttribute name setters →
  foldl (Schema.writeExtra value) attrs setters !! name = attrs !! name.
Proof.
  unfold keepsAttribute. revert attrs.
  induction setters as [|[prop setter] rest IH]; intros attrs Hkeep; [done|].
  apply Forall_cons in Hkeep as [Hhead Hrest]. simpl.
  rewrite IH by done. unfold Schema.writeExtra. simpl in *.
  destruct setter as [setter|]; [|done]. by apply Hhead.
Qed.

Lemma renders_absent attrs dom name :
  renders attrs dom → attrs !! name = None →
  Schema.getAttribute dom name = None.
Proof. intros Hdom Hname. specialize (Hdom name). by rewrite Hname in Hdom. Qed.

Lemma renders_text attrs dom name v text :
  renders attrs dom → attrs !! name = Some v → attributeText v = Some text →
  Schema.getAttribute dom name = Some text.
Proof.
  intros Hdom Hname Htext. specialize (Hdom name). rewrite Hname in Hdom.
  destruct v as [| |[z|]| | |]; try done; simpl in Hdom; by apply Hdom.
Qed.

(** An attribute object whose values all have a known text is rendered
    by [render]. *)
Lemma renders_render (attrs : gmap string Schema.Value) :
  map_Forall (λ _ v, Schema.isNullish v = false → is_Some (attributeText v))
             attrs →
  renders attrs (render attrs).
Proof.
  intros Hknown name. unfold Schema.getAttribute, render. simpl.
  rewrite lookup_omap. destruct (attrs !! name) as [v|] eqn:Hname; [|done].
  simpl. specialize (Hknown name v Hname).
  destruct (Schema.isNullish v); [done|]. by intros text ->.
Qed.

Lemma spanAttr_rendered (NumberOf : string → Schema.Num) attrs dom name (z : Z) :
  renders attrs dom →
  attrs !! name =
    (if decide (z ≠ 1) then Some (Schema.VNumber (Schema.NInt z)) else None) →
  plainInteger z →
  NumberOf (Schema.numberToString z) = Schema.NInt z →
  Schema.spanAttr NumberOf dom name = Schema.NInt z.
Proof.
  intros Hdom Hname Hplain Hnumber. unfold Schema.spanAttr.
  destruct (decide (z ≠ 1)) as [Hz|Hz].
  - rewrite (renders_text attrs dom name _ (Schema.numberToString z) Hdom Hname).
    + rewrite decide_False by apply numberToString_nonempty. done.
    + simpl. by rewrite decide_True.
  - rewrite (renders_absent attrs dom name Hdom Hname). f_equal. lia.
Qed.

Lemma setCellAttrs_lookup (a : CellAttrs)
    (setters : list (string * option Schema.SetDOMAttr)) :
  keepsAttribute "colspan" setters →
  keepsAttribute "rowspan" setters →
  keepsAttribute "data-colwidth" setters →
  let attrs := Schema.setCellAttrs a setters in
  attrs !! "colspan" =
    (if decide (colspan a ≠ 1)
     then Some (Schema.VNumber (Schema.NInt (colspan a))) else None) ∧
  attrs !! "rowspan" =
    (if decide (rowspan a ≠ 1)
     then Some (Schema.VNumber (Schema.NInt (rowspan a))) else None) ∧
  attrs !! "data-colwidth" =
    (l ← colwidth a; Some (Schema.VString (Schema.joinWidths l))).
Proof.
  intros Hc Hr Hw attrs. subst attrs. unfold Schema.setCellAttrs.
  rewrite !foldl_writeExtra_lookup by done.
  destruct (colwidth a) as [l|]; simpl;
    destruct (decide (colspan a ≠ 1)), (decide (rowspan a ≠ 1));
    split_and!; by simplify_map_eq.
Qed.

(** X12: a cell written with [setCellAttrs], rendered by the host and
    parsed again with [getCellAttrs] keeps its [colspan] and [rowspan]; it
    keeps its [colwidth] when that holds exactly [colspan] widths (and at
    least one), and gets [null] otherwise. The widths are integers that
    are not negative, the host's writers leave the three attributes of the
    package alone and its readers are named otherwise, and [Number] reads
    the digits of the two spans as their value. *)
Theorem getCellAttrs_reads_back_setCellAttrs
    (NumberOf : string → Schema.Num) (a : CellAttrs)
    (setters : list (string * option Schema.SetDOMAttr))
    (getters : list (string * Schema.CellAttributes))
    (dom : Schema.HTMLElement) :
  keepsAttribute "colspan" setters →
  keepsAttribute "rowspan" setters →
  keepsAttribute "data-colwidth" setters →
  "colspan" ∉ getters.*1 → "rowspan" ∉ getters.*1 → "colwidth" ∉ getters.*1 →
  plainInteger (colspan a) → plainInteger (rowspan a) →
  NumberOf (Schema.numberToString (colspan a)) = Schema.NInt (colspan a) →
  NumberOf (Schema.numberToString (rowspan a)) = Schema.NInt (rowspan a) →
  (∀ l, colwidth a = Some l → Forall (λ w, 0 ≤ w ∧ plainInteger w) l) →
  renders (Schema.setCellAttrs a setters) dom →
  let result := Schema.getCellAttrs NumberOf (inl dom) getters in
  result !! "colspan" = Some (Schema.VNumber (Schema.NInt (colspan a))) ∧
  result !! "rowspan" = Some (Schema.VNumber (Schema.NInt (rowspan a))) ∧
  result !! "colwidth" = Some (colwidthReadBack a).
Proof.
  intros Hsc Hsr Hsw Hgc Hgr Hgw Hpc Hpr Hnc Hnr Hwidths Hdom result.
  destruct (setCellAttrs_lookup a setters Hsc Hsr Hsw) as (Hc & Hr & Hw).
  subst result. unfold Schema.getCellAttrs.
  rewrite !foldl_readExtra_lookup by done.
  rewrite lookup_insert_eq, lookup_insert_ne, lookup_insert_eq,
    lookup_insert_ne, lookup_insert_ne, lookup_insert_eq by done.
  rewrite (spanAttr_rendered NumberOf _ dom "colspan" (colspan a)) by done.
  rewrite (spanAttr_rendered NumberOf _ dom "rowspan" (rowspan a)) by done.
  split_and!; [done|done|]. f_equal. unfold colwidthReadBack.
  destruct (colwidth a) as [l|] eqn:Hl; simpl in Hw.
  - rewrite (renders_text _ dom _ _ (Schema.joinWidths l) Hdom Hw) by done.
    destruct (decide (l = [])) as [->|Hne].
    + change (Schema.isDigitList (Schema.joinWidths [])) with false.
      rewrite decide_False; [done|]. by intros [? _].
    + destruct (joinWidths_parses l Hne) as [Hdig Hsplit].
      { eapply Forall_impl; [by apply Hwidths|]. by intros w [? _]. }
      rewrite Hdig, Hsplit.
      destruct (decide (Z.of_nat (length l) = colspan a)) as [Hlen|Hlen].
      * rewrite decide_True by congruence. by rewrite decide_True.
      * rewrite decide_False by congruence. rewrite decide_False; [done|].
        by intros [_ ?].
  - by rewrite (renders_absent _ dom _ Hdom Hw).
Qed.

(** A cell over two columns with the widths [100, 200] is rendered as
    [<td colspan="2" data-colwidth="100,200">] and comes back with its
    widths. *)
Lemma getCellAttrs_reads_back_setCellAttrs_witness :
  let a := attrs (sampleCell 2 1 (Some [100; 200])) in
  let attrs : gmap string Schema.Value :=
    <["data-colwidth" := Schema.VString "100,200"]>
      (<["colspan" := Schema.VNumber (Schema.NInt 2)]> ∅) in
  Schema.setCellAttrs a [] = attrs ∧
  Schema.getAttribute (render attrs) "data-colwidth" = Some "100,200" ∧
  Schema.getCellAttrs sampleNumber (inl (render attrs)) sampleExtraAttrs
    !! "colwidth" = Some (Schema.VNumbers [100; 200]).
Proof.
  intros a attrs. split_and!; [reflexivity|reflexivity|].
  assert (("colspan" ∉ sampleExtraAttrs.*1) ∧
          ("rowspan" ∉ sampleExtraAttrs.*1) ∧
          ("colwidth" ∉ sampleExtraAttrs.*1)) as (Hc & Hr & Hw).
  { split_and!; simpl; rewrite list_elem_of_In; simpl;
      intros [Heq|[]]; discriminate. }
  refine (proj2 (proj2 (getCellAttrs_reads_back_setCellAttrs sampleNumber a []
                          sampleExtraAttrs (render attrs)
                          _ _ _ Hc Hr Hw _ _ eq_refl eq_refl _ _)));
    try apply Forall_nil; try reflexivity.
  - intros l Hl. injection Hl as <-.
    repeat constructor; solve [lia|reflexivity].
  - apply renders_render.
    apply map_Forall_insert_2; [intros _; by eexists|].
    apply map_Forall_insert_2; [intros _; by eexists|].
    apply map_Forall_empty.
Defined.

Lemma getRowAttrs_rowheight (dom : Schema.HTMLElement)
    (getters : list (string * Schema.CellAttributes)) :
  "rowheight" ∉ getters.*1 →
  Schema.getRowAttrs (inl dom) getters !! "rowheight" =
  Some match Schema.getAttribute dom "data-rowheight" with
       | Some heightAttr =>
           if Schema.isDigitList heightAttr
           then Schema.VString heightAttr else Schema.VNull
       | None => Schema.VNull
       end.
Proof.
  intros Hget. unfold Schema.getRowAttrs.
  rewrite foldl_readExtra_lookup by done. by rewrite lookup_insert_eq.
Qed.

(** X15: a row node whose attributes hold no [rowheight], as the row
    nodes of this schema do ([table_row] declares no attributes), is
    written by [setRowAttrs] without a [data-rowheight], and [getRowAttrs]
    reads [rowheight] as [null] from its markup, whatever [data-rowheight]
    the row was parsed from. The host's writers leave [data-rowheight]
    alone and its readers are named otherwise. *)
Theorem rowheight_is_not_written_back
    (nodeAttrs : gmap string Schema.Value)
    (setters : list (string * option Schema.SetDOMAttr))
    (getters : list (string * Schema.CellAttributes)) :
  nodeAttrs !! "rowheight" = None →
  keepsAttribute "data-rowheight" setters →
  "rowheight" ∉ getters.*1 →
  ∃ attrs,
    Schema.setRowAttrs nodeAttrs setters = Some attrs ∧
    attrs !! "data-rowheight" = None ∧
    ∀ dom, renders attrs dom →
      Schema.getAttribute dom "data-rowheight" = None ∧
      Schema.getRowAttrs (inl dom) getters !! "rowheight" = Some Schema.VNull.
Proof.
  intros Hnone Hkeep Hget.
  set (value := λ prop, match nodeAttrs !! prop with
                        | Some v => v
                        | None => Schema.VUndefined
                        end).
  exists (foldl (Schema.writeExtra value) ∅ setters).
  assert (foldl (Schema.writeExtra value) ∅ setters !! "data-rowheight" = None)
    as Hheight by (by rewrite foldl_writeExtra_lookup by done).
  split_and!.
  - unfold Schema.setRowAttrs. by rewrite Hnone.
  - exact Hheight.
  - intros dom Hdom.
    pose proof (renders_absent _ dom _ Hdom Hheight) as Habsent.
    split; [exact Habsent|].
    rewrite getRowAttrs_rowheight by done. by rewrite Habsent.
Qed.

(** The row parsed from [<tr data-rowheight="60,80">] is a node without
    attributes: it is written as [<tr>], which reads as no height. *)
Lemma rowheight_is_not_written_back_witness :
  Schema.getRowAttrs (inl sampleTRMarkup) [] !! "rowheight"
    = Some (Schema.VString "60,80") ∧
  Schema.setRowAttrs ∅ [] = Some ∅ ∧
  Schema.getRowAttrs (inl (render ∅)) [] !! "rowheight" = Some Schema.VNull.
Proof.
  split; [reflexivity|]. split; [reflexivity|].
  destruct (rowheight_is_not_written_back ∅ [] [] (lookup_empty _)
              (Forall_nil_2 _) (not_elem_of_nil _))
    as (attrs & Hset & _ & Hread).
  change (Some ∅ = Some attrs) in Hset. injection Hset as <-.
  apply (Hread (render ∅)). apply renders_render. apply map_Forall_empty.
Defined.
